(** * ToolJet server helpers: connection cache and version comparison

    Shallow embedding of [server/src/helpers/utils.helper.ts]:
    [cacheConnection], [getCachedConnection], [isVersionGreaterThanOrEqual],
    [extractMajorVersion] and [checkVersionCompatibility]. *)

From Stdlib Require Import ZArith NArith QArith Lia Ascii String.
From stdpp Require Import base option list gmap strings.

Local Open Scope Z_scope.

(** ** The process-wide connection cache *)

Module ConnectionCache.

Section WithConnections.

(** The connection objects themselves are opaque to the helpers. *)
Variable Conn : Type.

(** [connection: any]: what a caller hands over may be any JavaScript value;
    only the distinction between the two absent values and everything else
    is observable in this file. *)
Inductive Value : Type :=
  | VUndefined
  | VNull
  | VConn (c : Conn).

(** A [Date] object: a time value in milliseconds since the epoch, or the
    invalid date, whose [getTime()] is NaN. *)
Inductive JsDate : Type :=
  | ValidDate (ms : Z)
  | InvalidDate.

(** The object literal [{ connection, updatedAt }]. *)
Record CacheEntry : Type := mkEntry {
  connection : Value;
  updatedAt : JsDate
}.

(** [globalThis.CACHED_CONNECTIONS] is created outside this file; it is used
    here as a dictionary from data source ids to entries and modelled as a
    finite map. *)
Definition Cache : Type := gmap string CacheEntry.

(** Code that runs against the global: a state transformer over [Cache]. *)
Definition M (A : Type) : Type := Cache -> A * Cache.

#[local] Instance M_ret : MRet M := fun A a σ => (a, σ).

#[local] Instance M_bind : MBind M :=
  fun A B k m σ => let '(a, σ') := m σ in k a σ'.

(** [globalThis.CACHED_CONNECTIONS[id]] as an r-value; [None] is [undefined]. *)
Definition readEntry (id : string) : M (option CacheEntry) :=
  fun σ => (σ !! id, σ).

(** [globalThis.CACHED_CONNECTIONS[id] = e]. *)
Definition writeEntry (id : string) (e : CacheEntry) : M unit :=
  fun σ => (tt, <[id := e]> σ).

(** [new Date(x || null).getTime()]: a [Date] object is truthy and is copied,
    [undefined] falls through to [null], and [new Date(null)] is the epoch.
    [None] stands for NaN. *)
Definition timeOf (x : option JsDate) : option Z :=
  match x with
  | Some (ValidDate ms) => Some ms
  | Some InvalidDate => None
  | None => Some 0
  end.

(** [(cachedAt.getTime() - updatedAt.getTime()) / 1000], in seconds.  The
    quotient is kept exact; IEEE rounding of a difference of two time values
    and of its division by 1000 changes neither its sign nor whether it is
    zero.  [None] is NaN. *)
Definition diffTime (cachedAt updatedAt : option Z) : option Q :=
  match cachedAt, updatedAt with
  | Some c, Some u => Some ((inject_Z c - inject_Z u) / inject_Z 1000)%Q
  | _, _ => None
  end.

(** [d < 0]; every comparison with NaN is false. *)
Definition ltZero (d : option Q) : bool :=
  match d with
  | Some q => negb (Qle_bool 0 q)
  | None => false
  end.

(** [export async function cacheConnection(dataSourceId, connection)];
    [now] is the clock reading that [new Date()] takes.  The promise
    resolves to [undefined]. *)
Definition cacheConnection (now : Z) (dataSourceId : string) (conn : Value)
  : M unit :=
  let updatedAt := ValidDate now in
  writeEntry dataSourceId {| connection := conn; updatedAt := updatedAt |}.

(** [export async function getCachedConnection(dataSourceId, dataSourceUpdatedAt)];
    the result is the value the returned promise resolves to.  The second
    argument is the data source's [updatedAt], a [Date], or [null] or
    [undefined] ([None]).  [cachedData] is the entry or the empty object
    [{}], on which both property reads give [undefined]; it is always
    truthy, so the outer [if] is always entered. *)
Definition getCachedConnection (dataSourceId : string)
    (dataSourceUpdatedAt : option JsDate) : M Value :=
  cachedData ← readEntry dataSourceId;
  let refUpdatedAt := timeOf dataSourceUpdatedAt in
  let cachedAt := timeOf (updatedAt <$> cachedData) in
  if ltZero (diffTime cachedAt refUpdatedAt) then mret VNull
  else mret (from_option connection VUndefined cachedData).

(** A call made by some request handler against the shared cache. *)
Inductive Call : Type :=
  | CallCacheConnection (now : Z) (dataSourceId : string) (conn : Value)
  | CallGetCachedConnection (dataSourceId : string)
      (dataSourceUpdatedAt : option JsDate).

(** The call is a [cacheConnection] for [id]. *)
Definition storesTo (id : string) (c : Call) : Prop :=
  match c with
  | CallCacheConnection _ id' _ => id' = id
  | CallGetCachedConnection _ _ => False
  end.

(** The cache after one call, whatever the call returned. *)
Definition step (c : Call) (σ : Cache) : Cache :=
  match c with
  | CallCacheConnection now id conn => (cacheConnection now id conn σ).2
  | CallGetCachedConnection id ts => (getCachedConnection id ts σ).2
  end.

(** The cache after a sequence of calls, first call first. *)
Definition run (calls : list Call) (σ : Cache) : Cache :=
  foldl (fun σ c => step c σ) σ calls.

End WithConnections.

Arguments VUndefined {Conn}.
Arguments VNull {Conn}.
Arguments VConn {Conn} c.
Arguments mkEntry {Conn} connection updatedAt.
Arguments connection {Conn} c.
Arguments updatedAt {Conn} c.
Arguments cacheConnection {Conn} now dataSourceId conn _.
Arguments getCachedConnection {Conn} dataSourceId dataSourceUpdatedAt _.
Arguments CallCacheConnection {Conn} now dataSourceId conn.
Arguments CallGetCachedConnection {Conn} dataSourceId dataSourceUpdatedAt.
Arguments storesTo {Conn} id c.
Arguments step {Conn} c σ.
Arguments run {Conn} calls σ.

(** Two data sources sharing the cache: a store for the second and a lookup
    for the first. *)
Definition sampleCalls : list (Call nat) :=
  [CallCacheConnection 1500 "ds-2" (VConn 8%nat);
   CallGetCachedConnection "ds-1" (Some (ValidDate 2000))].

End ConnectionCache.

(** ** The JavaScript primitives the version helpers rest on

    Strings are sequences of code units; the code units modelled are those
    below 256, one [ascii] each. *)

Module Js.

Local Open Scope N_scope.

(** An abrupt completion: the only exception the operations used here can
    raise is a [TypeError] (a method call on [undefined] or [null]). *)
Inductive Completion (A : Type) : Type :=
  | Normal (a : A)
  | ThrowTypeError.

Arguments Normal {A} a.
Arguments ThrowTypeError {A}.

#[export] Instance Completion_ret : MRet Completion := fun A a => Normal a.

#[export] Instance Completion_bind : MBind Completion :=
  fun A B k m => match m with Normal a => k a | ThrowTypeError => ThrowTypeError end.

(** The Number values that [Number(segment)] can produce for a string
    without ['.'] and ['-']: NaN, a non-negative integer that is a double,
    or [+Infinity]. *)
Inductive Num : Type :=
  | NaN
  | Fin (n : N)
  | PosInfinity.

(** [a < b] on Number values; false as soon as one side is NaN. *)
Definition num_ltb (a b : Num) : bool :=
  match a, b with
  | Fin x, Fin y => x <? y
  | Fin _, PosInfinity => true
  | _, _ => false
  end.

(** [ToBoolean] on a Number: NaN and 0 are falsy. *)
Definition num_truthy (a : Num) : bool :=
  match a with
  | NaN => false
  | Fin n => negb (n =? 0)
  | PosInfinity => true
  end.

(** [+x] where [x] is an array element: [undefined] (index out of range)
    becomes NaN, a Number is itself. *)
Definition unaryPlus (x : option Num) : Num :=
  match x with
  | Some a => a
  | None => NaN
  end.

(** [x || 0] on a Number. *)
Definition orZero (x : Num) : Num :=
  if num_truthy x then x else Fin 0.

(** [ToBoolean] on a string: only the empty string is falsy. *)
Definition str_truthy (s : string) : bool :=
  match s with
  | EmptyString => false
  | String _ _ => true
  end.

(** The double nearest to the integer [n], ties to even; integers from
    [2^1024 - 2^970] on round to [+Infinity]. *)
Definition toDouble (n : N) : Num :=
  if n <? 2 ^ 53 then Fin n
  else
    let e := N.log2 n - 52 in
    let q := N.shiftr n e in
    let r := N.land n (N.ones e) in
    let half := N.shiftl 1 (e - 1) in
    let q' := if (half <? r) || ((r =? half) && N.odd q) then q + 1 else q in
    let v := N.shiftl q' e in
    if v <? N.shiftl 1 1024 then Fin v else PosInfinity.

Definition charCode (c : ascii) : N := N_of_ascii c.

(** [StrWhiteSpaceChar] among the code units below 256: TAB, LF, VT, FF, CR,
    SP and NBSP. *)
Definition isWhiteSpace (c : ascii) : bool :=
  let n := charCode c in
  ((9 <=? n) && (n <=? 13)) || (n =? 32) || (n =? 160).

Fixpoint trimStart (s : string) : string :=
  match s with
  | String c s' => if isWhiteSpace c then trimStart s' else s
  | EmptyString => EmptyString
  end.

Fixpoint trimEnd (s : string) : string :=
  match s with
  | String c s' =>
      match trimEnd s' with
      | EmptyString => if isWhiteSpace c then EmptyString else String c EmptyString
      | t => String c t
      end
  | EmptyString => EmptyString
  end.

Definition trim (s : string) : string := trimEnd (trimStart s).

Definition isDecimalDigit (c : ascii) : bool :=
  (48 <=? charCode c) && (charCode c <=? 57).

(** Every character is a decimal digit. *)
Fixpoint allDecimal (s : string) : bool :=
  match s with
  | EmptyString => true
  | String c s' => isDecimalDigit c && allDecimal s'
  end.

(** The value of [c] as a digit in the given radix, if it is one. *)
Definition digitOf (radix : N) (c : ascii) : option N :=
  let n := charCode c in
  let d :=
    if (48 <=? n) && (n <=? 57) then Some (n - 48)
    else if (97 <=? n) && (n <=? 102) then Some (n - 87)
    else if (65 <=? n) && (n <=? 70) then Some (n - 55)
    else None in
  match d with
  | Some v => if v <? radix then Some v else None
  | None => None
  end.

Fixpoint digitsAcc (radix acc : N) (s : string) : option N :=
  match s with
  | EmptyString => Some acc
  | String c s' =>
      match digitOf radix c with
      | Some d => digitsAcc radix (acc * radix + d) s'
      | None => None
      end
  end.

(** The mathematical value of one or more digits of the radix. *)
Definition digits (radix : N) (s : string) : option N :=
  match s with
  | EmptyString => None
  | String _ _ => digitsAcc radix 0 s
  end.

Definition isExponentIndicator (c : ascii) : bool :=
  (charCode c =? 101) || (charCode c =? 69).

(** The text before the first [e] or [E], and the text after it if any. *)
Fixpoint splitExponent (s : string) : string * option string :=
  match s with
  | EmptyString => (EmptyString, None)
  | String c s' =>
      if isExponentIndicator c then (EmptyString, Some s')
      else let '(m, e) := splitExponent s' in (String c m, e)
  end.

Definition stripPlus (s : string) : string :=
  match s with
  | String "+" s' => s'
  | _ => s
  end.

(** [StrUnsignedDecimalLiteral] without a fraction and without a negative
    exponent: [Infinity], or decimal digits with an optional exponent. *)
Definition strUnsignedDecimalLiteral (s : string) : Num :=
  if String.eqb s "Infinity" then PosInfinity
  else
    match splitExponent s with
    | (m, None) =>
        match digits 10 m with
        | Some v => toDouble v
        | None => NaN
        end
    | (m, Some e) =>
        match digits 10 m, digits 10 (stripPlus e) with
        | Some v, Some k => toDouble (v * 10 ^ k)
        | _, _ => NaN
        end
    end.

(** [NonDecimalIntegerLiteral]: [0x], [0o] or [0b] (either case) followed by
    digits of that radix.  [None] when the text has no such prefix. *)
Definition nonDecimalIntegerLiteral (s : string) : option Num :=
  match s with
  | String "0" (String p ds) =>
      let radix :=
        if (charCode p =? 120) || (charCode p =? 88) then Some 16
        else if (charCode p =? 111) || (charCode p =? 79) then Some 8
        else if (charCode p =? 98) || (charCode p =? 66) then Some 2
        else None in
      match radix with
      | Some r => Some (match digits r ds with Some v => toDouble v | None => NaN end)
      | None => None
      end
  | _ => None
  end.

(** [Number(s)] for a string [s] in which neither ['.'] nor ['-'] occurs,
    which is all that [.map(Number)] is applied to in this file: white space
    around the literal is skipped, the empty text is 0, and text that is not
    a numeric literal is NaN.  A sign can only be ['+'], and only on a
    decimal literal. *)
Definition Number_of_segment (s : string) : Num :=
  match trim s with
  | EmptyString => Fin 0
  | t =>
      match nonDecimalIntegerLiteral t with
      | Some v => v
      | None => strUnsignedDecimalLiteral (stripPlus t)
      end
  end.

(** The character occurs in the string. *)
Fixpoint occurs (c : ascii) (s : string) : bool :=
  match s with
  | EmptyString => false
  | String c' s' => Ascii.eqb c' c || occurs c s'
  end.

(** [s.split(sep)] for a one-character separator: the first piece and the
    pieces after it. *)
Fixpoint splitPieces (sep : ascii) (s : string) : string * list string :=
  match s with
  | EmptyString => (EmptyString, [])
  | String c s' =>
      let '(h, t) := splitPieces sep s' in
      if Ascii.eqb c sep then (EmptyString, h :: t) else (String c h, t)
  end.

Definition split (sep : ascii) (s : string) : list string :=
  let '(h, t) := splitPieces sep s in h :: t.

(** [x.split(sep)] where [x] is an array element: a [TypeError] when [x] is
    [undefined]. *)
Definition callSplit (x : option string) (sep : ascii) : Completion (list string) :=
  match x with
  | Some s => Normal (split sep s)
  | None => ThrowTypeError
  end.

(** [String(n)] for an integer below [10^21]: its decimal digits.  [fuel]
    bounds the digits after the first. *)
Fixpoint toDecimal (fuel : nat) (n : N) (acc : string) : string :=
  let acc' := String (ascii_of_N (48 + n mod 10)) acc in
  match fuel with
  | O => acc'
  | S f => if n <? 10 then acc' else toDecimal f (n / 10) acc'
  end.

Definition numberToString (n : N) : string :=
  toDecimal (N.to_nat (N.log2 n)) n EmptyString.

End Js.

(** ** The [semver] package

    [semver] is an npm dependency of the server; its sources are not part of
    the helpers file.  The three functions the helpers call are modelled on
    the strings they can be given here. *)

Module Semver.

Import Js.

Local Open Scope N_scope.

(** A [SemVer] object without pre-release or build identifiers, which is all
    that [coerce] produces. *)
Record SemVer : Type := mkSemVer {
  major : N;
  minor : N;
  patch : N
}.

Definition MAX_SAFE_INTEGER : N := 2 ^ 53 - 1.

Definition MAX_SAFE_COMPONENT_LENGTH : nat := 16.

(** The longest prefix of digits, and what follows it. *)
Fixpoint spanDigits (s : string) : string * string :=
  match s with
  | String c s' =>
      if isDecimalDigit c then let '(d, r) := spanDigits s' in (String c d, r)
      else (EmptyString, s)
  | EmptyString => (EmptyString, EmptyString)
  end.

Definition componentLength (d : string) : bool :=
  ((1 <=? String.length d) && (String.length d <=? MAX_SAFE_COMPONENT_LENGTH))%nat.

(** An optional [.digits] group right after a run of digits; the group is
    skipped when its digits are too many, since whatever follows it must not
    be a digit. *)
Definition optionalComponent (rest : string) : option string * string :=
  match rest with
  | String "." rest' =>
      let '(d, r) := spanDigits rest' in
      if componentLength d then (Some d, r) else (None, rest)
  | _ => (None, rest)
  end.

(** The captures of a match whose first group is the digit run [run]. *)
Definition matchComponents (run rest : string)
  : string * option string * option string :=
  let '(mi, rest') := optionalComponent rest in
  match mi with
  | Some _ => let '(pa, _) := optionalComponent rest' in (run, mi, pa)
  | None => (run, None, None)
  end.

(** The leftmost match of the coercion pattern: up to three dot-separated
    runs of at most 16 digits, the first starting where no digit precedes
    and the last ending where no digit follows.  [prevDigit] tells whether
    the character before [s] is a digit. *)
Fixpoint coerceMatch (prevDigit : bool) (s : string)
  : option (string * option string * option string) :=
  match s with
  | EmptyString => None
  | String c s' =>
      if isDecimalDigit c then
        if prevDigit then coerceMatch true s'
        else
          let '(run, rest) := spanDigits s in
          if componentLength run then Some (matchComponents run rest)
          else coerceMatch true s'
      else coerceMatch false s'
  end.

(** More than one character, the first of them ["0"]. *)
Definition hasLeadingZero (s : string) : bool :=
  match s with
  | String c (String _ _) => Ascii.eqb c "0"
  | _ => false
  end.

(** A numeric identifier of a strict version: decimal digits without a
    leading zero, worth at most [MAX_SAFE_INTEGER]. *)
Definition numericIdentifier (s : string) : option N :=
  if hasLeadingZero s then None
  else
    match digits 10 s with
    | Some n => if n <=? MAX_SAFE_INTEGER then Some n else None
    | None => None
    end.

(** Strict parsing of [major.minor.patch]; [None] is [null]. *)
Definition parseMain (ma mi pa : string) : option SemVer :=
  x ← numericIdentifier ma;
  y ← numericIdentifier mi;
  z ← numericIdentifier pa;
  Some (mkSemVer x y z).

(** Modelled from the spec: [semver.coerce], from the semver package, which
    is not under src/.  It coerces a loose version string to
    [major.minor.patch], discarding pre-release and build metadata, and
    gives [null] ([None]) when no numeric version is recognizable. *)
Definition coerce (version : string) : option SemVer :=
  match coerceMatch false version with
  | Some (ma, mi, pa) => parseMain ma (default "0"%string mi) (default "0"%string pa)
  | None => None
  end.

(** The [version] property: the normalized [major.minor.patch] string. *)
Definition version (v : SemVer) : string :=
  numberToString (major v) +:+ "." +:+ numberToString (minor v)
    +:+ "." +:+ numberToString (patch v).

(** Modelled from the spec: [semver.valid], from the semver package, which
    is not under src/, on what [coerce] returns: the normalized string of
    a version object, [null] for [null]. *)
Definition valid (v : option SemVer) : option string :=
  version <$> v.

(** Precedence on major, then minor, then patch. *)
Definition compareMain (a b : SemVer) : comparison :=
  match major a ?= major b with
  | Eq =>
      match minor a ?= minor b with
      | Eq => patch a ?= patch b
      | c => c
      end
  | c => c
  end.

(** Modelled from the spec: [semver.gte], from the semver package, which is
    not under src/: greater than or equal under semantic-version
    precedence.  Building a version object from [null] raises a
    [TypeError]. *)
Definition gte (a b : option SemVer) : Completion bool :=
  match a, b with
  | Some x, Some y =>
      Normal (match compareMain x y with Lt => false | _ => true end)
  | _, _ => ThrowTypeError
  end.

(** Semantic-version precedence, spelled out: [a] is at least [b]. *)
Definition precedes_or_equal (b a : SemVer) : Prop :=
  major b < major a \/
  (major b = major a /\
   (minor b < minor a \/ (minor b = minor a /\ patch b <= patch a))).

(** [semver.satisfies(v, '>= M.m.p')], from the semver package, on what
    [coerce] returns: a version without pre-release identifiers satisfies
    the range when it is at least the bound, and [null] satisfies nothing
    (no exception is raised). *)
Definition satisfiesAtLeast (v : option SemVer) (bound : SemVer) : bool :=
  match v with
  | Some x => match compareMain x bound with Lt => false | _ => true end
  | None => false
  end.

End Semver.

(** ** Version helpers *)

Module Version.

Import Js.

Local Open Scope N_scope.

(** The body of the [for] loop of [isVersionGreaterThanOrEqual], from index
    [i] on, with [remaining] iterations left before [i] reaches
    [Math.max(v1Parts.length, v2Parts.length)]. *)
Fixpoint compareFrom (v1Parts v2Parts : list Num) (i remaining : nat) : bool :=
  match remaining with
  | O => true
  | S remaining' =>
      let v1Part := orZero (unaryPlus (v1Parts !! i)) in
      let v2Part := orZero (unaryPlus (v2Parts !! i)) in
      if num_ltb v1Part v2Part then false
      else if num_ltb v2Part v1Part then true
      else compareFrom v1Parts v2Parts (S i) remaining'
  end.

(** [export function isVersionGreaterThanOrEqual(version1: string, version2: string)]. *)
Definition isVersionGreaterThanOrEqual (version1 version2 : string)
  : Completion bool :=
  if negb (str_truthy version1) then Normal false
  else
    v1Segments ← callSplit (split "-" version1 !! 0%nat) ".";
    v2Segments ← callSplit (split "-" version2 !! 0%nat) ".";
    let v1Parts := Number_of_segment <$> v1Segments in
    let v2Parts := Number_of_segment <$> v2Segments in
    Normal (compareFrom v1Parts v2Parts 0
              (Nat.max (length v1Parts) (length v2Parts))).

(** [export function extractMajorVersion(version)]; [None] is [null]. *)
Definition extractMajorVersion (version : string) : option string :=
  Semver.valid (Semver.coerce version).

(** [export function checkVersionCompatibility(importingVersion)];
    [TOOLJET_VERSION] is the value of [globalThis.TOOLJET_VERSION]. *)
Definition checkVersionCompatibility (TOOLJET_VERSION importingVersion : string)
  : Completion bool :=
  Semver.gte (Semver.coerce TOOLJET_VERSION) (Semver.coerce importingVersion).

(** *** The comparison as the specification words it

    [compareDottedVersions] is written from the specification's six steps,
    over any way [coerce] of turning a segment into a value of an ordered
    type with a zero. *)

Section Algorithm.

Variable V : Type.
Variable coerce : string -> V.
Variable zero : V.
Variable ltb : V -> V -> bool.

(** Step 2: drop everything from the first ['-'] on. *)
Fixpoint stripSuffix (s : string) : string :=
  match s with
  | EmptyString => EmptyString
  | String c s' => if Ascii.eqb c "-" then EmptyString else String c (stripSuffix s')
  end.

(** Step 3: the version tuple. *)
Definition versionTuple (v : string) : list V :=
  coerce <$> split "." (stripSuffix v).

(** Step 4: a tuple extended with zeros up to [n] segments. *)
Definition padTo (n : nat) (t : list V) : list V :=
  t ++ replicate (n - length t) zero.

(** Steps 5 and 6: the first pair of segments that differ decides; equal
    tuples give [true]. *)
Fixpoint firstDifference (t1 t2 : list V) : bool :=
  match t1, t2 with
  | x :: t1', y :: t2' =>
      if ltb x y || ltb y x then ltb y x else firstDifference t1' t2'
  | _, _ => true
  end.

Definition compareDottedVersions (v1 v2 : string) : bool :=
  match v1 with
  | EmptyString => false
  | String _ _ =>
      let t1 := versionTuple v1 in
      let t2 := versionTuple v2 in
      let n := Nat.max (length t1) (length t2) in
      firstDifference (padTo n t1) (padTo n t2)
  end.

End Algorithm.

(** The coercion of a segment that the code performs: [Number], with NaN
    replaced by 0. *)
Definition numberOrZero (segment : string) : Num :=
  orZero (Number_of_segment segment).

(** The coercion of a segment as the specification words it: a segment is
    coerced to the integer it denotes, and a segment that denotes none
    becomes 0. *)
Definition integerOrZero (segment : string) : N :=
  default 0 (digits 10 segment).

(** [export function isTooljetVersionWithNormalizedAppDefinitionSchem(version)]:
    [semver.satisfies(semver.coerce(version), '>= 2.24.0')]. *)
Definition isTooljetVersionWithNormalizedAppDefinitionSchem (version : string)
  : bool :=
  Semver.satisfiesAtLeast (Semver.coerce version) (Semver.mkSemVer 2 24 0).

End Version.

(** ** The connection cache as an ordinary object

    [globalThis.CACHED_CONNECTIONS] is created outside the helpers file; here
    it is taken to be an ordinary object that starts out as [{}].  Such an
    object inherits from [Object.prototype]: reading a key it does not own
    follows the prototype chain, and assigning to the key ["__proto__"] runs
    the inherited setter, which makes the assigned object the new prototype
    instead of creating a property.  [ConnectionCache] above is this object
    seen through the ids that hold an entry. *)

Module ObjectCache.

Import ConnectionCache.

Section WithConnections.

Variable Conn : Type.

(** A connection handle is opaque, but a lookup can end up reading two of
    its properties: [handleTruthy h] is [ToBoolean(h)],
    [handleCachedAt h] is [new Date(h.updatedAt || null).getTime()] ([None]
    for NaN) and [handleConnection h] is [h['connection']]. *)
Variable handleTruthy : Conn -> bool.
Variable handleCachedAt : Conn -> option Z.
Variable handleConnection : Conn -> Value Conn.

(** The cache object: its own properties, and the entry that a store under
    ["__proto__"] made its prototype, if there was one.  The prototype of
    such an entry, and of the cache while [proto] is [None], is
    [Object.prototype]. *)
Record CacheObject : Type := mkCacheObject {
  own : gmap string (CacheEntry Conn);
  proto : option (CacheEntry Conn)
}.

(** [{}]. *)
Definition emptyObject : CacheObject := mkCacheObject ∅ None.

(** The function-valued properties of [Object.prototype]; its one other
    property is the accessor [__proto__]. *)
Definition objectPrototypeFunctions : list string :=
  ["constructor"; "__defineGetter__"; "__defineSetter__"; "hasOwnProperty";
   "__lookupGetter__"; "__lookupSetter__"; "isPrototypeOf";
   "propertyIsEnumerable"; "toString"; "valueOf"; "toLocaleString"]%string.

(** What reading a key of the cache object can give: an entry, a value that
    was stored as a connection, the date of an entry, some other object or
    function that has neither a [connection] nor an [updatedAt] property, or
    [undefined]. *)
Inductive PropertyValue : Type :=
  | PEntry (e : CacheEntry Conn)
  | PValue (v : Value Conn)
  | PDate (d : JsDate)
  | POther
  | PUndefined.

(** A key looked up on [Object.prototype]. *)
Definition inheritedFromObjectPrototype (id : string) : PropertyValue :=
  if existsb (String.eqb id) objectPrototypeFunctions then POther
  else PUndefined.

(** [CACHED_CONNECTIONS[id]] as an r-value: the getter of [__proto__] gives
    the prototype; an own property wins over the chain; the prototype entry
    has the properties [connection] and [updatedAt]; the chain ends in
    [Object.prototype]. *)
Definition getProperty (id : string) (σ : CacheObject) : PropertyValue :=
  if String.eqb id "__proto__" then
    match proto σ with
    | Some e => PEntry e
    | None => POther
    end
  else
    match own σ !! id with
    | Some e => PEntry e
    | None =>
        match proto σ with
        | Some e =>
            if String.eqb id "connection" then PValue (connection e)
            else if String.eqb id "updatedAt" then PDate (updatedAt e)
            else inheritedFromObjectPrototype id
        | None => inheritedFromObjectPrototype id
        end
    end.

(** [CACHED_CONNECTIONS[id] = e] for an entry object [e]: the setter of
    [__proto__] replaces the prototype; any other key becomes, or stays, an
    own property. *)
Definition setProperty (id : string) (e : CacheEntry Conn) (σ : CacheObject)
  : CacheObject :=
  if String.eqb id "__proto__" then mkCacheObject (own σ) (Some e)
  else mkCacheObject (<[id := e]> (own σ)) (proto σ).

Definition M (A : Type) : Type := CacheObject -> A * CacheObject.

#[local] Instance M_ret : MRet M := fun A a σ => (a, σ).

#[local] Instance M_bind : MBind M :=
  fun A B k m σ => let '(a, σ') := m σ in k a σ'.

Definition readEntry (id : string) : M PropertyValue :=
  fun σ => (getProperty id σ, σ).

Definition writeEntry (id : string) (e : CacheEntry Conn) : M unit :=
  fun σ => (tt, setProperty id e σ).

Definition valueTruthy (v : Value Conn) : bool :=
  match v with
  | VConn h => handleTruthy h
  | _ => false
  end.

(** [x || {}]: a falsy value gives way to the empty object. *)
Definition orEmptyObject (x : PropertyValue) : PropertyValue :=
  match x with
  | PValue v => if valueTruthy v then x else POther
  | PUndefined => POther
  | _ => x
  end.

(** [new Date(cachedData.updatedAt || null).getTime()]. *)
Definition cachedAtOf (cachedData : PropertyValue) : option Z :=
  match cachedData with
  | PEntry e => timeOf (Some (updatedAt e))
  | PValue (VConn h) => handleCachedAt h
  | _ => timeOf None
  end.

(** [cachedData['connection']]. *)
Definition connectionOf (cachedData : PropertyValue) : Value Conn :=
  match cachedData with
  | PEntry e => connection e
  | PValue (VConn h) => handleConnection h
  | _ => VUndefined
  end.

(** [cacheConnection], against the object. *)
Definition cacheConnection (now : Z) (dataSourceId : string) (conn : Value Conn)
  : M unit :=
  let updatedAt := ValidDate now in
  writeEntry dataSourceId {| connection := conn; updatedAt := updatedAt |}.

(** [getCachedConnection], against the object. *)
Definition getCachedConnection (dataSourceId : string)
    (dataSourceUpdatedAt : option JsDate) : M (Value Conn) :=
  raw ← readEntry dataSourceId;
  let cachedData := orEmptyObject raw in
  let refUpdatedAt := timeOf dataSourceUpdatedAt in
  let cachedAt := cachedAtOf cachedData in
  if ltZero (diffTime cachedAt refUpdatedAt) then mret VNull
  else mret (connectionOf cachedData).

Definition step (c : Call Conn) (σ : CacheObject) : CacheObject :=
  match c with
  | CallCacheConnection now id conn => (cacheConnection now id conn σ).2
  | CallGetCachedConnection id ts => (getCachedConnection id ts σ).2
  end.

Definition run (calls : list (Call Conn)) (σ : CacheObject) : CacheObject :=
  foldl (fun σ c => step c σ) σ calls.

(** The entry an id holds: its own property, or the prototype for
    ["__proto__"].  This is the finite map of [ConnectionCache]. *)
Definition view (σ : CacheObject) : gmap string (CacheEntry Conn) :=
  match proto σ with
  | Some p => <["__proto__"%string := p]> (own σ)
  | None => delete "__proto__"%string (own σ)
  end.

(** The entry made by the last [cacheConnection] for [id] among the calls. *)
Definition lastStore (id : string) (calls : list (Call Conn))
  : option (CacheEntry Conn) :=
  foldl (fun acc c =>
           match c with
           | CallCacheConnection now id' conn =>
               if String.eqb id' id then Some (mkEntry conn (ValidDate now))
               else acc
           | CallGetCachedConnection _ _ => acc
           end) None calls.

(** The handle that an id without an entry reads through the prototype:
    only the id ["connection"] does, once an entry has been made the
    prototype, and only a truthy handle survives the [|| {}]. *)
Definition inheritedHandle (id : string) (σ : CacheObject) : option Conn :=
  if String.eqb id "connection" then
    match proto σ with
    | Some e =>
        match connection e with
        | VConn h => if handleTruthy h then Some h else None
        | _ => None
        end
    | None => None
    end
  else None.

(** The result for [cachedData = {}]: the empty object counts as cached at
    the epoch and has no connection. *)
Definition absentByTime (ts : option JsDate) : Value Conn :=
  match timeOf ts with
  | Some t => if bool_decide (0 < t) then VNull else VUndefined
  | None => VUndefined
  end.

End WithConnections.

Arguments mkCacheObject {Conn} own proto.
Arguments own {Conn} c.
Arguments proto {Conn} c.
Arguments emptyObject {Conn}.
Arguments PEntry {Conn} e.
Arguments PValue {Conn} v.
Arguments PDate {Conn} d.
Arguments POther {Conn}.
Arguments PUndefined {Conn}.
Arguments getProperty {Conn} id σ.
Arguments setProperty {Conn} id e σ.
Arguments readEntry {Conn} id _.
Arguments writeEntry {Conn} id e _.
Arguments cacheConnection {Conn} now dataSourceId conn _.
Arguments getCachedConnection {Conn} handleTruthy handleCachedAt handleConnection
  dataSourceId dataSourceUpdatedAt _.
Arguments step {Conn} handleTruthy handleCachedAt handleConnection c σ.
Arguments run {Conn} handleTruthy handleCachedAt handleConnection calls σ.
Arguments view {Conn} σ.
Arguments lastStore {Conn} id calls.
Arguments inheritedHandle {Conn} handleTruthy id σ.
Arguments absentByTime {Conn} ts.

(** A handle like a database client: truthy, without an [updatedAt]
    property, and with a [connection] property of its own, here the
    value [8]. *)
Definition sampleTruthy (h : nat) : bool := true.

Definition sampleCachedAt (h : nat) : option Z := Some 0.

Definition sampleConnection (h : nat) : Value nat := VConn 8%nat.

End ObjectCache.

(** ** String helpers *)

Module Text.

Import Js.

Local Open Scope N_scope.

(** [toLowerCase] on one code unit below 256: the letters [A]-[Z] and the
    accented capitals [U+00C0]-[U+00DE] other than the multiplication sign
    move up by 32; every other code unit stays.  Each of these code units
    lower-cases to one code unit; code units from 256 on, among them
    [U+0130], which lower-cases to two, are not represented, so nothing
    below is said about lengths. *)
Definition toLowerChar (c : ascii) : ascii :=
  let n := charCode c in
  if ((65 <=? n) && (n <=? 90))
     || ((192 <=? n) && (n <=? 222) && negb (n =? 215))
  then ascii_of_N (n + 32)
  else c.

Fixpoint toLowerCase (s : string) : string :=
  match s with
  | EmptyString => EmptyString
  | String c s' => String (toLowerChar c) (toLowerCase s')
  end.

(** A code unit that [toLowerCase] changes. *)
Definition isUpperCase (c : ascii) : bool :=
  let n := charCode c in
  ((65 <=? n) && (n <=? 90))
  || ((192 <=? n) && (n <=? 222) && negb (n =? 215)).


(** [export function lowercaseString(value: string)]:
    [value?.toLowerCase()?.trim()].  [None] is [null] or [undefined] as an
    argument and [undefined] as a result. *)
Definition lowercaseString (value : option string) : option string :=
  match value with
  | Some s => Some (trim (toLowerCase s))
  | None => None
  end.

(** [path.replace(/^\/+/, '')]: the string without its leading slashes. *)
Fixpoint stripLeadingSlashes (s : string) : string :=
  match s with
  | String c s' => if Ascii.eqb c "/" then stripLeadingSlashes s' else s
  | EmptyString => EmptyString
  end.

(** [export function maybeSetSubPath(path)]; [SUB_PATH] is the value of
    [process.env.SUB_PATH], [None] when the variable is not set.  lodash's
    [isEmpty] on a string tells whether it has no characters. *)
Definition maybeSetSubPath (SUB_PATH : option string) (path : string) : string :=
  let hasSubPath := match SUB_PATH with Some _ => true | None => false end in
  let urlPrefix := if hasSubPath then default EmptyString SUB_PATH else EmptyString in
  if negb (str_truthy urlPrefix) then path
  else
    let pathWithoutLeadingSlash := stripLeadingSlashes path in
    urlPrefix +:+ pathWithoutLeadingSlash.



(** The first [n] characters, and what follows them. *)
Fixpoint takeChars (n : nat) (s : string) : string :=
  match n, s with
  | S n', String c s' => String c (takeChars n' s')
  | _, _ => EmptyString
  end.

Fixpoint dropChars (n : nat) (s : string) : string :=
  match n, s with
  | S n', String _ s' => dropChars n' s'
  | _, _ => s
  end.

(** [s.substring(start, end)] for [start <= end]; both are clamped to the
    length. *)
Definition substring (start finish : nat) (s : string) : string :=
  takeChars (finish - start) (dropChars start s).

(** [s.replace(pattern, replacement)] for a string pattern and a replacement
    without ['$']: the first occurrence of the pattern is replaced, and [s]
    is returned as it is when there is none. *)
Fixpoint replaceFirst (pattern replacement s : string) : string :=
  if String.prefix pattern s
  then replacement +:+ dropChars (String.length pattern) s
  else
    match s with
    | EmptyString => EmptyString
    | String c s' => String c (replaceFirst pattern replacement s')
    end.

(** [export const truncateAndReplace = (name)]; [now] is the value of
    [Date.now()], which [replace] and [+] turn into its decimal digits. *)
Definition truncateAndReplace (now : N) (name : string) : string :=
  let secondsSinceEpoch := numberToString now in
  if (35 <? String.length name)%nat
  then replaceFirst (substring 35 50 name) secondsSinceEpoch name
  else name +:+ secondsSinceEpoch.

End Text.

(** ** Batches, copy numbers, object cleaning and constraint errors *)

Module Data.

Import Js.

Local Open Scope nat_scope.

(** *** [processDataInBatches] *)

Section Batches.

(** Rows of type [T] are read from, and batches are processed against, a
    store of type [W]; the two callbacks are taken as they come, the entity
    manager being part of what they close over.  A callback that rejects is
    not modelled. *)
Variables T W : Type.
Variable getData : nat -> nat -> W -> list T * W.
Variable processBatch : list T -> W -> W.

(** The [do ... while] loop, entered with the current [skip].  [fuel] bounds
    the number of iterations; [None] means that this many iterations did not
    reach the end of the loop. *)
Fixpoint batchLoop (fuel batchSize skip : nat) (w : W) : option W :=
  match fuel with
  | O => None
  | S fuel' =>
      let '(data, w1) := getData skip batchSize w in
      let skip' := skip + batchSize in
      let w2 := if 0 <? length data then processBatch data w1 else w1 in
      if length data =? batchSize then batchLoop fuel' batchSize skip' w2
      else Some w2
  end.

(** [export const processDataInBatches = async (entityManager, getData,
    processBatch, batchSize = 1000)]. *)
Definition processDataInBatches (fuel batchSize : nat) (w : W) : option W :=
  batchLoop fuel batchSize 0 w.

End Batches.

Arguments batchLoop {T W} getData processBatch fuel batchSize skip w.
Arguments processDataInBatches {T W} getData processBatch fuel batchSize w.

(** A [getData] that pages through a fixed list of rows, as a query with
    [skip] and [take] does, and a [processBatch] that records the batch it
    is given. *)
Definition pageOf {T} (rows : list T) (skip take_ : nat) (log : list (list T))
  : list T * list (list T) :=
  (take take_ (drop skip rows), log).

Definition recordBatch {T} (data : list T) (log : list (list T)) : list (list T) :=
  log ++ [data].

(** *** [getMaxCopyNumber] *)

(** A Number that may be negative: NaN, an integer-valued double, or an
    infinity.  The two zeros are not told apart; nothing below does. *)
Inductive JsNumber : Type :=
  | JNaN
  | JFin (z : Z)
  | JInf (negative : bool).

(** The double nearest to [z], with its sign. *)
Definition roundZ (z : Z) : JsNumber :=
  match toDouble (Z.abs_N z) with
  | Fin n => JFin (if z <? 0 then - Z.of_N n else Z.of_N n)%Z
  | PosInfinity => JInf (z <? 0)%Z
  | NaN => JNaN
  end.

(** The longest prefix made of digits of the radix. *)
Fixpoint digitPrefix (radix : N) (s : string) : string :=
  match s with
  | String c s' =>
      match digitOf radix c with
      | Some _ => String c (digitPrefix radix s')
      | None => EmptyString
      end
  | EmptyString => EmptyString
  end.

(** [parseInt(x)] without a radix: leading white space is skipped, a sign is
    read, [0x] or [0X] selects radix 16, and the longest prefix of digits
    gives the value, rounded to the nearest double; NaN when there is no
    digit.  [None] is [undefined], which is read as the text ["undefined"]. *)
Definition parseInt (x : option string) : JsNumber :=
  let inputString := default "undefined"%string x in
  let S0 := trimStart inputString in
  let negative := match S0 with String "-" _ => true | _ => false end in
  let S1 := match S0 with
            | String "-" r => r
            | String "+" r => r
            | _ => S0
            end in
  let '(R, S2) :=
    match S1 with
    | String "0" (String p r) =>
        if ((charCode p =? 120) || (charCode p =? 88))%N then (16%N, r)
        else (10%N, S1)
    | _ => (10%N, S1)
    end in
  match digits R (digitPrefix R S2) with
  | Some mathInt =>
      roundZ (if negative then - Z.of_N mathInt else Z.of_N mathInt)%Z
  | None => JNaN
  end.

Definition isNaN (x : JsNumber) : bool :=
  match x with
  | JNaN => true
  | _ => false
  end.

(** The larger of two Numbers, NaN if either is. *)
Definition max2 (a b : JsNumber) : JsNumber :=
  match a, b with
  | JNaN, _ | _, JNaN => JNaN
  | JInf false, _ | _, JInf false => JInf false
  | JInf true, y => y
  | x, JInf true => x
  | JFin x, JFin y => JFin (Z.max x y)
  end.

(** [Math.max(...xs)]: minus infinity for no argument. *)
Definition mathMax (xs : list JsNumber) : JsNumber :=
  foldl max2 (JInf true) xs.

(** [x + 1]. *)
Definition addOne (x : JsNumber) : JsNumber :=
  match x with
  | JFin z => roundZ (z + 1)%Z
  | _ => x
  end.

(** [s.split(sep)] for a non-empty separator, scanning left to right.
    [skip] counts the characters of a separator just matched that are still
    to be passed over, [cur] is the piece being read. *)
Fixpoint splitScan (sep : string) (skip : nat) (cur : string) (s : string)
  : list string :=
  match s with
  | EmptyString => [cur]
  | String c s' =>
      match skip with
      | S k => splitScan sep k cur s'
      | O =>
          if String.prefix sep s
          then cur :: splitScan sep (String.length sep - 1) EmptyString s'
          else splitScan sep 0 (cur +:+ String c EmptyString) s'
      end
  end.

(** The code units of a string, one string each. *)
Fixpoint codeUnits (s : string) : list string :=
  match s with
  | EmptyString => []
  | String c s' => String c EmptyString :: codeUnits s'
  end.

(** [s.split(sep)]: with the empty separator the string falls apart into its
    code units, and the empty string into no piece at all. *)
Definition splitBy (sep s : string) : list string :=
  match sep with
  | EmptyString => codeUnits s
  | String _ _ => splitScan sep 0 EmptyString s
  end.

(** [parseInt(parts[parts.length - 1])] for [parts = name.split(splitChar)]. *)
Definition copyNumberOf (splitChar name : string) : JsNumber :=
  let parts := splitBy splitChar name in
  parseInt (last parts).

(** What [getMaxCopyNumber] returns: the empty string or a Number. *)
Inductive CopyNumber : Type :=
  | NoNames
  | NextNumber (n : JsNumber).

(** [export const getMaxCopyNumber = (existNameList, splitChar = '_')]. *)
Definition getMaxCopyNumber (existNameList : list string) (splitChar : string)
  : CopyNumber :=
  if length existNameList =? 0 then NoNames
  else
    let filteredNames :=
      filter (fun name => negb (isNaN (copyNumberOf splitChar name)) = true)
        existNameList in
    let numbers := copyNumberOf splitChar <$> filteredNames in
    let maxNumber := mathMax (numbers ++ [JFin 0]) in
    NextNumber (addOne maxNumber).

(** *** [cleanObject] *)

(** A JavaScript value as a tree: objects list their own enumerable
    properties in key order, each key once.  Values that share structure or
    contain themselves are not represented. *)
#[warnings="-register-all"]
Inductive JsVal : Type :=
  | JUndefined
  | JNull
  | JBool (b : bool)
  | JNumber (n : JsNumber)
  | JString (s : string)
  | JArray (items : list JsVal)
  | JObject (props : list (string * JsVal)).

(** What the call does to the value of one property that is kept: an object
    that is not an array is cleaned in place, anything else, arrays
    included, is left alone. *)
Fixpoint cleanIn (v : JsVal) : JsVal :=
  match v with
  | JObject props =>
      JObject
        ((fix go (ps : list (string * JsVal)) : list (string * JsVal) :=
            match ps with
            | [] => []
            | (key, x) :: ps' =>
                match x with
                | JUndefined => go ps'
                | _ => (key, cleanIn x) :: go ps'
                end
            end) props)
  | _ => v
  end.

(** [export function cleanObject(obj: any)], for an object that is not an
    array: the properties of [obj] once the call is over.  A property whose
    value is [undefined] is deleted. *)
Fixpoint cleanObject (obj : list (string * JsVal)) : list (string * JsVal) :=
  match obj with
  | [] => []
  | (key, x) :: obj' =>
      match x with
      | JUndefined => cleanObject obj'
      | _ => (key, cleanIn x) :: cleanObject obj'
      end
  end.

(** Some property of the object, or of an object reached from it through
    properties only, has the value [undefined]. *)
Fixpoint hasUndefinedProperty (v : JsVal) : bool :=
  match v with
  | JObject props =>
      (fix any (ps : list (string * JsVal)) : bool :=
         match ps with
         | [] => false
         | (_, x) :: ps' =>
             match x with
             | JUndefined => true
             | _ => hasUndefinedProperty x || any ps'
             end
         end) props
  | _ => false
  end.

Definition isUndefined (v : JsVal) : bool :=
  match v with
  | JUndefined => true
  | _ => false
  end.

(** *** [catchDbException] *)

(** [type DbContraintAndMsg]. *)
Record DbContraintAndMsg : Type := mkConstraint {
  dbConstraint : string;
  message : string
}.

(** The outcome of awaiting a promise. *)
Inductive Outcome (A X : Type) : Type :=
  | Resolved (a : A)
  | Rejected (x : X).

Arguments Resolved {A X} a.
Arguments Rejected {A X} x.

(** What [catchDbException] throws: a [ConflictException] it makes, or the
    error it caught. *)
Inductive Thrown (E : Type) : Type :=
  | ConflictException (message : string)
  | Caught (err : E).

Arguments ConflictException {E} message.
Arguments Caught {E} err.

(** [s.includes(searchString)]. *)
Fixpoint includes (searchString s : string) : bool :=
  String.prefix searchString s ||
  match s with
  | EmptyString => false
  | String _ s' => includes searchString s'
  end.

(** The [dbConstraints.map] in the [catch] block: the callback throws at the
    first constraint whose name occurs in the error message, which ends the
    iteration.  [errMessage] is [err?.message], a string or nothing. *)
Fixpoint firstConflict (errMessage : option string)
    (dbConstraints : list DbContraintAndMsg) : option string :=
  match dbConstraints with
  | [] => None
  | c :: rest =>
      if from_option (includes (dbConstraint c)) false errMessage
      then Some (message c)
      else firstConflict errMessage rest
  end.

(** [export async function catchDbException(operation, dbConstraints)];
    [operation] is the outcome of [await operation()] and [messageOf] reads
    the [message] of what was thrown. *)
Definition catchDbException {A E} (messageOf : E -> option string)
    (operation : Outcome A E) (dbConstraints : list DbContraintAndMsg)
  : Outcome A (Thrown E) :=
  match operation with
  | Resolved a => Resolved a
  | Rejected err =>
      match firstConflict (messageOf err) dbConstraints with
      | Some msg => Rejected (ConflictException msg)
      | None => Rejected (Caught err)
      end
  end.

End Data.

(** * Properties of the connection cache *)

Module CacheFacts.

Import ConnectionCache.

Section WithConnections.

Context {Conn : Type}.

Implicit Types (σ : gmap string (CacheEntry Conn)) (e : CacheEntry Conn).
Implicit Types (conn : Value Conn) (ts : option JsDate).

Lemma cacheConnection_state now id conn σ :
  (cacheConnection now id conn σ).2 = <[id := mkEntry conn (ValidDate now)]> σ.
Proof. reflexivity. Qed.

Lemma getCachedConnection_state id ts σ :
  (getCachedConnection id ts σ).2 = σ.
Proof.
  unfold getCachedConnection, mbind, M_bind, readEntry.
  destruct (ltZero _); reflexivity.
Qed.

Lemma getCachedConnection_result id ts σ :
  (getCachedConnection id ts σ).1 =
    if ltZero (diffTime (timeOf (updatedAt <$> σ !! id)) (timeOf ts))
    then VNull
    else from_option connection VUndefined (σ !! id).
Proof.
  unfold getCachedConnection, mbind, M_bind, readEntry.
  destruct (ltZero _); reflexivity.
Qed.

(** The sign of the difference in seconds is the sign of the difference of
    the two time values. *)
Lemma ltZero_diffTime (c u : Z) :
  ltZero (diffTime (Some c) (Some u)) = bool_decide (c < u).
Proof.
  unfold ltZero, diffTime.
  destruct (Qle_bool 0 _) eqn:E; simpl.
  - apply Qle_bool_iff in E.
    rewrite bool_decide_eq_false_2; [done|].
    intros Hlt. revert E.
    unfold Qle, Qdiv, Qminus, Qplus, Qopp, Qmult, Qinv, inject_Z; simpl. lia.
  - rewrite bool_decide_eq_true_2; [done|].
    destruct (Z_lt_le_dec c u) as [|Hle]; [done|].
    assert (Qle_bool 0 ((inject_Z c - inject_Z u) / inject_Z 1000) = true) as E'.
    { apply Qle_bool_iff.
      unfold Qle, Qdiv, Qminus, Qplus, Qopp, Qmult, Qinv, inject_Z; simpl. lia. }
    congruence.
Qed.

Lemma step_other id (c : Call Conn) σ :
  ¬ storesTo id c → step c σ !! id = σ !! id.
Proof.
  destruct c as [now id' conn | id' ts]; intros Hne; unfold step.
  - rewrite cacheConnection_state.
    unfold Cache. rewrite lookup_insert_ne; [done | exact Hne].
  - by rewrite getCachedConnection_state.
Qed.

Lemma run_other id (calls : list (Call Conn)) σ :
  Forall (fun c => ¬ storesTo id c) calls → run calls σ !! id = σ !! id.
Proof.
  intros Hcalls. revert σ.
  induction Hcalls as [| c calls Hc _ IH]; intros σ; [done|].
  unfold run in *. simpl. rewrite IH. by apply step_other.
Qed.

Lemma run_app (calls1 calls2 : list (Call Conn)) σ :
  run (calls1 ++ calls2) σ = run calls2 (run calls1 σ).
Proof. apply foldl_app. Qed.

(** A lookup whose reference time is not after the entry's time returns the
    entry's connection. *)
Lemma lookup_fresh id ts σ e c ms :
  σ !! id = Some e → updatedAt e = ValidDate c → timeOf ts = Some ms →
  ms <= c → (getCachedConnection id ts σ).1 = connection e.
Proof.
  intros He Hc Hts Hle.
  rewrite getCachedConnection_result, He, Hts.
  change (updatedAt <$> Some e) with (Some (updatedAt e)). rewrite Hc.
  change (timeOf (Some (ValidDate c))) with (Some c).
  rewrite ltZero_diffTime, bool_decide_eq_false_2; [done | lia].
Qed.

(** A lookup whose reference time is after the entry's time returns [null]. *)
Lemma lookup_stale id ts σ e c ms :
  σ !! id = Some e → updatedAt e = ValidDate c → timeOf ts = Some ms →
  c < ms → (getCachedConnection id ts σ).1 = VNull.
Proof.
  intros He Hc Hts Hlt.
  rewrite getCachedConnection_result, He, Hts.
  change (updatedAt <$> Some e) with (Some (updatedAt e)). rewrite Hc.
  change (timeOf (Some (ValidDate c))) with (Some c).
  rewrite ltZero_diffTime, bool_decide_eq_true_2; [done | lia].
Qed.

(** C2: once [cacheConnection] has stored [h] for [R] at time [now], a
    [getCachedConnection] for [R] with a reference time not after [now]
    returns [h], whatever calls were made in between, provided none of them
    stored for [R] again. *)
Theorem store_then_lookup σ R h now (calls : list (Call Conn)) ts t :
  Forall (fun c => ¬ storesTo R c) calls →
  timeOf ts = Some t → t <= now →
  (getCachedConnection R ts (run calls (cacheConnection now R h σ).2)).1 = h.
Proof.
  intros Hcalls Hts Hle.
  apply (lookup_fresh R ts _ (mkEntry h (ValidDate now)) now t); try done.
  rewrite run_other by done.
  rewrite cacheConnection_state. unfold Cache. apply lookup_insert_eq.
Qed.

(** C3: when [R] has an entry cached at [c] and the reference time [t] is
    strictly after [c], [getCachedConnection] computes the difference
    [(c - t) / 1000] seconds, which is negative, and returns [null] instead
    of the connection. *)
Theorem stale_lookup_returns_null σ R e c ts t :
  σ !! R = Some e → updatedAt e = ValidDate c →
  timeOf ts = Some t → c < t →
  (∃ d : Q,
      diffTime (timeOf (updatedAt <$> σ !! R)) (timeOf ts) = Some d ∧
      (d == inject_Z (c - t) / inject_Z 1000)%Q ∧ (d < 0)%Q) ∧
  ltZero (diffTime (timeOf (updatedAt <$> σ !! R)) (timeOf ts)) = true ∧
  (getCachedConnection R ts σ).1 = VNull.
Proof.
  intros He Hc Hts Hlt. split; [| split].
  - rewrite He, Hts.
    change (updatedAt <$> Some e) with (Some (updatedAt e)). rewrite Hc.
    exists ((inject_Z c - inject_Z t) / inject_Z 1000)%Q.
    split; [reflexivity | split].
    + unfold Qeq, Qdiv, Qminus, Qplus, Qopp, Qmult, Qinv, inject_Z; simpl. lia.
    + unfold Qlt, Qdiv, Qminus, Qplus, Qopp, Qmult, Qinv, inject_Z; simpl. lia.
  - rewrite He, Hts.
    change (updatedAt <$> Some e) with (Some (updatedAt e)). rewrite Hc.
    change (timeOf (Some (ValidDate c))) with (Some c).
    rewrite ltZero_diffTime. apply bool_decide_eq_true_2. lia.
  - by apply (lookup_stale R ts σ e c t).
Qed.

(** C4: [getCachedConnection] leaves the cache as it found it.  In
    particular a stale entry stays: after a lookup for [R] at [t1 > c] has
    returned [null], a lookup at [t2 <= c] still returns the stored
    connection. *)
Theorem lookup_leaves_cache_unchanged σ R e c ts1 ts2 t1 t2 :
  σ !! R = Some e → updatedAt e = ValidDate c →
  timeOf ts1 = Some t1 → timeOf ts2 = Some t2 → c < t1 → t2 <= c →
  (∀ id ts σ', (getCachedConnection (Conn := Conn) id ts σ').2 = σ') ∧
  (getCachedConnection R ts1 σ).1 = VNull ∧
  (getCachedConnection R ts1 σ).2 = σ ∧
  (getCachedConnection R ts2 (getCachedConnection R ts1 σ).2).1 = connection e.
Proof.
  intros He Hc H1 H2 Hlt Hle.
  split; [apply getCachedConnection_state | split; [| split]].
  - by apply (lookup_stale R ts1 σ e c t1).
  - apply getCachedConnection_state.
  - rewrite getCachedConnection_state.
    by apply (lookup_fresh R ts2 σ e c t2).
Qed.

(** C6: a second [cacheConnection] for [R] replaces the first: after storing
    [h1] and later [h2], the entry of [R] is the one made for [h2], and a
    lookup with a reference time not after the second store returns [h2],
    hence not [h1] when the two differ.  Calls between the two stores are
    arbitrary; calls after the second do not store for [R]. *)
Theorem second_store_overwrites σ R h1 h2 now1 now2
    (between after : list (Call Conn)) ts t :
  Forall (fun c => ¬ storesTo R c) after →
  timeOf ts = Some t → t <= now2 →
  let σ1 := (cacheConnection now1 R h1 σ).2 in
  let σ2 := run after (cacheConnection now2 R h2 (run between σ1)).2 in
  σ2 !! R = Some (mkEntry h2 (ValidDate now2)) ∧
  (getCachedConnection R ts σ2).1 = h2 ∧
  (h1 ≠ h2 → (getCachedConnection R ts σ2).1 ≠ h1).
Proof.
  intros Hafter Hts Hle σ1 σ2.
  assert (σ2 !! R = Some (mkEntry h2 (ValidDate now2))) as Hentry.
  { unfold σ2. rewrite run_other by done.
    rewrite cacheConnection_state. unfold Cache. apply lookup_insert_eq. }
  assert ((getCachedConnection R ts σ2).1 = h2) as Hres.
  { by apply (lookup_fresh R ts σ2 (mkEntry h2 (ValidDate now2)) now2 t). }
  split; [done | split; [done |]].
  rewrite Hres. congruence.
Qed.

End WithConnections.

Lemma sampleCalls_spare_ds1 :
  Forall (fun c => ¬ storesTo "ds-1" c) sampleCalls.
Proof.
  unfold sampleCalls. repeat constructor; simpl; [discriminate | tauto].
Defined.

Lemma store_then_lookup_witness :
  (getCachedConnection "ds-1" (Some (ValidDate 900))
     (run sampleCalls (cacheConnection 1000 "ds-1" (VConn 7%nat) ∅).2)).1
  = VConn 7%nat.
Proof.
  apply (store_then_lookup ∅ "ds-1" (VConn 7%nat) 1000 sampleCalls
           (Some (ValidDate 900)) 900).
  - exact sampleCalls_spare_ds1.
  - reflexivity.
  - lia.
Defined.

Lemma stale_lookup_returns_null_witness :
  (getCachedConnection "ds-1" (Some (ValidDate 1001))
     (<["ds-1" := mkEntry (VConn 7%nat) (ValidDate 1000)]> ∅)).1 = VNull.
Proof.
  apply (stale_lookup_returns_null
           (<["ds-1" := mkEntry (VConn 7%nat) (ValidDate 1000)]> ∅)
           "ds-1" (mkEntry (VConn 7%nat) (ValidDate 1000)) 1000
           (Some (ValidDate 1001)) 1001).
  - reflexivity.
  - reflexivity.
  - reflexivity.
  - lia.
Defined.

Lemma lookup_leaves_cache_unchanged_witness :
  let σ : gmap string (CacheEntry nat) :=
    <["ds-1" := mkEntry (VConn 7%nat) (ValidDate 1000)]> ∅ in
  (getCachedConnection "ds-1" None
     (getCachedConnection "ds-1" (Some (ValidDate 1001)) σ).2).1
  = VConn 7%nat.
Proof.
  intros σ.
  apply (lookup_leaves_cache_unchanged σ "ds-1"
           (mkEntry (VConn 7%nat) (ValidDate 1000)) 1000
           (Some (ValidDate 1001)) None 1001 0).
  - reflexivity.
  - reflexivity.
  - reflexivity.
  - reflexivity.
  - lia.
  - lia.
Defined.

Lemma second_store_overwrites_witness :
  (getCachedConnection "ds-1" (Some (ValidDate 1200))
     (run sampleCalls
        (cacheConnection 1200 "ds-1" (VConn 9%nat)
           (run sampleCalls (cacheConnection 1000 "ds-1" (VConn 7%nat) ∅).2)).2)).1
  ≠ VConn 7%nat.
Proof.
  apply (second_store_overwrites ∅ "ds-1" (VConn 7%nat) (VConn 9%nat) 1000 1200
           sampleCalls sampleCalls (Some (ValidDate 1200)) 1200).
  - exact sampleCalls_spare_ds1.
  - reflexivity.
  - lia.
  - discriminate.
Defined.

End CacheFacts.

(** * Properties of the dotted-version comparison *)

Module VersionFacts.

Import Js Version.

Local Open Scope N_scope.

Ltac cmp_cases :=
  repeat (match goal with
    | |- context [N.leb ?a ?b] => destruct (N.leb_spec a b)
    | |- context [N.ltb ?a ?b] => destruct (N.ltb_spec a b)
    | |- context [N.eqb ?a ?b] => destruct (N.eqb_spec a b)
    end; simpl);
  try done; try lia.

Lemma split_head sep s : split sep s !! 0%nat = Some (splitPieces sep s).1.
Proof. unfold split. by destruct (splitPieces sep s). Qed.

Lemma splitPieces_stripSuffix s : (splitPieces "-" s).1 = stripSuffix s.
Proof.
  induction s as [| c s IH]; [done |].
  simpl. destruct (splitPieces "-" s) as [h t]. simpl in IH.
  destruct (Ascii.eqb c "-"); simpl; congruence.
Qed.

(** What the function does once [version1] is known to be non-empty. *)
Lemma isVersionGreaterThanOrEqual_unfold c v1 version2 :
  let v1Parts := Number_of_segment <$> split "." (stripSuffix (String c v1)) in
  let v2Parts := Number_of_segment <$> split "." (stripSuffix version2) in
  isVersionGreaterThanOrEqual (String c v1) version2 =
    Normal (compareFrom v1Parts v2Parts 0
              (Nat.max (length v1Parts) (length v2Parts))).
Proof.
  intros v1Parts v2Parts. unfold isVersionGreaterThanOrEqual.
  change (negb (str_truthy (String c v1))) with false. cbv iota.
  rewrite !split_head, !splitPieces_stripSuffix. reflexivity.
Qed.

Lemma num_ltb_asym a b : num_ltb a b = true → num_ltb b a = false.
Proof.
  destruct a, b; simpl; try done.
  intros H%N.ltb_lt. apply N.ltb_ge. lia.
Qed.

Lemma orZero_not_NaN x : orZero x ≠ NaN.
Proof. destruct x as [| n |]; unfold orZero; simpl; try done. by destruct (n =? 0). Qed.

Lemma padTo_cons {V} (zero x : V) n t :
  padTo V zero (S n) (x :: t) = x :: padTo V zero n t.
Proof. reflexivity. Qed.

Lemma padTo_nil {V} (zero : V) n :
  padTo V zero (S n) [] = zero :: padTo V zero n [].
Proof. unfold padTo. simpl. by rewrite Nat.sub_0_r. Qed.

Lemma length_padTo {V} (zero : V) n t :
  (length t ≤ n)%nat → length (padTo V zero n t) = n.
Proof. intros H. unfold padTo. rewrite length_app, length_replicate. lia. Qed.

(** The element the loop reads at index [i], and the rest of the padded
    tuple. *)
Lemma padTo_drop (l : list Num) i n :
  padTo Num (Fin 0) (S n) (drop i (orZero <$> l)) =
    orZero (unaryPlus (l !! i)) :: padTo Num (Fin 0) n (drop (S i) (orZero <$> l)).
Proof.
  destruct (l !! i) as [x |] eqn:E.
  - rewrite (drop_S _ (orZero x)) by (by rewrite list_lookup_fmap, E).
    apply padTo_cons.
  - apply lookup_ge_None in E.
    rewrite !drop_ge by (rewrite length_fmap; lia).
    apply padTo_nil.
Qed.

(** The loop computes the first difference of the zero-padded tuples. *)
Lemma compareFrom_firstDifference (l1 l2 : list Num) n i :
  (length l1 - i ≤ n)%nat → (length l2 - i ≤ n)%nat →
  compareFrom l1 l2 i n =
    firstDifference Num num_ltb
      (padTo Num (Fin 0) n (drop i (orZero <$> l1)))
      (padTo Num (Fin 0) n (drop i (orZero <$> l2))).
Proof.
  revert i. induction n as [| n IH]; intros i H1 H2.
  - rewrite !drop_ge by (rewrite length_fmap; lia). reflexivity.
  - rewrite !padTo_drop. simpl.
    destruct (num_ltb (orZero (unaryPlus (l1 !! i)))
                (orZero (unaryPlus (l2 !! i)))) eqn:E12.
    + simpl. by rewrite (num_ltb_asym _ _ E12).
    + simpl.
      destruct (num_ltb (orZero (unaryPlus (l2 !! i)))
                  (orZero (unaryPlus (l1 !! i)))); [done |].
      apply IH; lia.
Qed.

(** The code is the specification's algorithm run on segments coerced by
    [Number] with NaN replaced by 0. *)
Lemma isVersionGreaterThanOrEqual_algorithm version1 version2 :
  isVersionGreaterThanOrEqual version1 version2 =
    Normal (compareDottedVersions Num numberOrZero (Fin 0) num_ltb
              version1 version2).
Proof.
  destruct version1 as [| c v1]; [reflexivity |].
  rewrite isVersionGreaterThanOrEqual_unfold.
  rewrite compareFrom_firstDifference by lia.
  unfold compareDottedVersions, versionTuple, numberOrZero.
  rewrite !drop_0, !length_fmap.
  rewrite !(list_fmap_compose Number_of_segment orZero).
  rewrite ?length_fmap. reflexivity.
Qed.

(** *** Segments written with decimal digits *)

Lemma digitOf_decimal c d :
  digitOf 10 c = Some d → 48 <= charCode c <= 57 ∧ d = charCode c - 48.
Proof.
  unfold digitOf. generalize (charCode c). intros n.
  cmp_cases; intros [= Hd]; lia.
Qed.

Lemma isDecimalDigit_digitOf c :
  isDecimalDigit c = true → digitOf 10 c = Some (charCode c - 48).
Proof.
  unfold isDecimalDigit, digitOf. generalize (charCode c). intros n.
  cmp_cases.
Qed.

Lemma isDecimalDigit_range c :
  isDecimalDigit c = true ↔ 48 <= charCode c <= 57.
Proof.
  unfold isDecimalDigit. generalize (charCode c). intros n.
  cmp_cases; split; (done || lia).
Qed.

Lemma digitsAcc_allDecimal acc s n :
  digitsAcc 10 acc s = Some n → allDecimal s = true.
Proof.
  revert acc. induction s as [| c s IH]; intros acc; [done |].
  simpl. destruct (digitOf 10 c) as [d |] eqn:E; [| done].
  intros H. apply digitOf_decimal in E as [E _].
  rewrite (proj2 (isDecimalDigit_range c) E). simpl. by eapply IH.
Qed.

Lemma decimal_not_whiteSpace c : isDecimalDigit c = true → isWhiteSpace c = false.
Proof.
  intros H%isDecimalDigit_range. unfold isWhiteSpace.
  revert H. generalize (charCode c). intros n H. cmp_cases.
Qed.

Lemma decimal_not_exponent c :
  isDecimalDigit c = true → isExponentIndicator c = false.
Proof.
  intros H%isDecimalDigit_range. unfold isExponentIndicator.
  revert H. generalize (charCode c). intros n H. cmp_cases.
Qed.

Lemma allDecimal_trimEnd s : allDecimal s = true → trimEnd s = s.
Proof.
  induction s as [| c s IH]; [done |].
  simpl. intros [Hc Hs]%andb_true_iff. rewrite (IH Hs).
  destruct s; [| done]. by rewrite (decimal_not_whiteSpace c Hc).
Qed.

Lemma allDecimal_trim s : allDecimal s = true → trim s = s.
Proof.
  intros H. unfold trim.
  assert (trimStart s = s) as ->.
  { destruct s as [| c s]; [done |]. simpl in *.
    apply andb_true_iff in H as [Hc _].
    by rewrite (decimal_not_whiteSpace c Hc). }
  by apply allDecimal_trimEnd.
Qed.

Lemma allDecimal_splitExponent s :
  allDecimal s = true → splitExponent s = (s, None).
Proof.
  induction s as [| c s IH]; [done |].
  simpl. intros [Hc Hs]%andb_true_iff.
  by rewrite (decimal_not_exponent c Hc), (IH Hs).
Qed.

Lemma allDecimal_nonDecimalIntegerLiteral s :
  allDecimal s = true → nonDecimalIntegerLiteral s = None.
Proof.
  destruct s as [| c [| p s]]; try done.
  - simpl. by destruct c as [[] [] [] [] [] [] [] []].
  - intros H. simpl in H.
    apply andb_true_iff in H as [_ [Hp%isDecimalDigit_range _]%andb_true_iff].
    unfold nonDecimalIntegerLiteral.
    assert ((if (charCode p =? 120) || (charCode p =? 88) then Some 16
             else if (charCode p =? 111) || (charCode p =? 79) then Some 8
             else if (charCode p =? 98) || (charCode p =? 66) then Some 2
             else None) = None) as ->.
    { revert Hp. generalize (charCode p). intros n Hp. cmp_cases. }
    by destruct c as [[] [] [] [] [] [] [] []].
Qed.

Lemma allDecimal_head s :
  allDecimal s = true → s ≠ EmptyString →
  stripPlus s = s ∧ String.eqb s "Infinity" = false.
Proof.
  destruct s as [| c s]; [done |]. intros H _. simpl in H.
  apply andb_true_iff in H as [Hc _].
  destruct c as [[] [] [] [] [] [] [] []]; try discriminate Hc; done.
Qed.

(** [Number] on decimal digits is the double nearest to their value. *)
Lemma Number_of_decimal s n :
  digits 10 s = Some n → Number_of_segment s = toDouble n.
Proof.
  intros H. destruct s as [| c s]; [done |].
  assert (allDecimal (String c s) = true) as Hall
    by (by eapply digitsAcc_allDecimal).
  unfold Number_of_segment. rewrite (allDecimal_trim _ Hall). cbv iota.
  rewrite (allDecimal_nonDecimalIntegerLiteral _ Hall).
  destruct (allDecimal_head (String c s) Hall) as [-> Hinf]; [done |].
  unfold strUnsignedDecimalLiteral.
  by rewrite Hinf, (allDecimal_splitExponent _ Hall), H.
Qed.

Lemma toDouble_exact n : n < 2 ^ 53 → toDouble n = Fin n.
Proof. intros H%N.ltb_lt. unfold toDouble. by rewrite H. Qed.

(** Above [2^53] the result has a 53-bit significand at the exponent of [n]
    and lies within half a unit in the last place of [n]. *)
Lemma toDouble_nearest n v :
  2 ^ 53 <= n → toDouble n = Fin v →
  let e := N.log2 n - 52 in
  ∃ q, v = q * 2 ^ e ∧ 2 ^ 52 <= q <= 2 ^ 53 ∧
       2 * v <= 2 * n + 2 ^ e ∧ 2 * n <= 2 * v + 2 ^ e.
Proof.
  intros Hn. unfold toDouble.
  destruct (N.ltb_spec n (2 ^ 53)) as [Hlt | _]; [lia |].
  intros Hv. set (e := N.log2 n - 52) in *.
  assert (53 <= N.log2 n) as Hlog by (by apply N.log2_le_pow2; [lia |]).
  assert (e = N.succ (e - 1)) as He by (unfold e; lia).
  assert (N.log2 n = e + 52) as Hle by (unfold e; lia).
  pose proof (N.log2_spec n ltac:(lia)) as [Hlo Hhi].
  rewrite Hle in Hlo. rewrite Hle, <- N.add_succ_r in Hhi.
  rewrite N.pow_add_r in Hlo, Hhi. change (N.succ 52) with 53 in Hhi.
  rewrite N.shiftr_div_pow2, N.land_ones, N.shiftl_1_l in Hv.
  pose proof (N.div_mod' n (2 ^ e)) as Hdm.
  pose proof (N.mod_lt n (2 ^ e) ltac:(apply N.pow_nonzero; lia)) as Hr.
  assert (2 ^ e = 2 * 2 ^ (e - 1)) as Hp.
  { rewrite He at 1. by rewrite N.pow_succ_r'. }
  set (P := 2 ^ e) in *. set (H := 2 ^ (e - 1)) in *.
  set (q := n / P) in *. set (r := n mod P) in *.
  assert (2 ^ 52 <= q < 2 ^ 53) as Hq.
  { split.
    - apply N.div_le_lower_bound; [lia | exact Hlo].
    - apply N.Div0.div_lt_upper_bound. exact Hhi. }
  set (up := (H <? r) || (r =? H) && N.odd q) in *.
  assert (up = true → H <= r) as Hup.
  { unfold up. intros [?%N.ltb_lt | [?%N.eqb_eq _]%andb_true_iff]%orb_true_iff; lia. }
  assert (up = false → r <= H) as Hdown.
  { unfold up. intros [?%N.ltb_ge _]%orb_false_iff. lia. }
  destruct up.
  - specialize (Hup eq_refl).
    destruct (N.shiftl (q + 1) e <? N.shiftl 1 1024); [| done].
    injection Hv as <-. rewrite N.shiftl_mul_pow2. fold P.
    exists (q + 1). split; [done |]. split; [lia |]. nia.
  - specialize (Hdown eq_refl).
    destruct (N.shiftl q e <? N.shiftl 1 1024); [| done].
    injection Hv as <-. rewrite N.shiftl_mul_pow2. fold P.
    exists q. split; [done |]. split; [lia |]. nia.
Qed.

(** *** The strings that reach [Number] *)

Lemma stripSuffix_no_dash v : occurs "-" (stripSuffix v) = false.
Proof.
  induction v as [| c v IH]; [done |].
  simpl. destruct (Ascii.eqb c "-") eqn:E; [done |].
  simpl. by rewrite E.
Qed.

Lemma split_pieces_alphabet sep d s :
  occurs d s = false →
  Forall (fun piece => occurs sep piece = false ∧ occurs d piece = false)
    (split sep s).
Proof.
  unfold split. induction s as [| c s IH]; intros Hd.
  - simpl. by repeat constructor.
  - simpl in Hd. apply orb_false_iff in Hd as [Hc Hs].
    specialize (IH Hs). simpl.
    destruct (splitPieces sep s) as [h t].
    apply Forall_cons in IH as [[Hh1 Hh2] Ht].
    destruct (Ascii.eqb c sep) eqn:E.
    + by repeat constructor.
    + constructor; [| done]. simpl. by rewrite E, Hc.
Qed.

(** Neither ['.'] nor ['-'] occurs in a segment handed to [Number]. *)
Lemma segments_alphabet v :
  Forall (fun segment => occurs "." segment = false ∧ occurs "-" segment = false)
    (split "." (stripSuffix v)).
Proof. apply split_pieces_alphabet, stripSuffix_no_dash. Qed.

(** *** The claims *)

(** C1, as stated, fails.  Both segments below are plain decimal integers,
    and the first is the smaller one, so the specified algorithm answers
    [false]; [Number] rounds the second to the first, the loop finds no
    difference and the code answers [true]. *)
Lemma compareDottedVersions_integer_counterexample :
  isVersionGreaterThanOrEqual "9007199254740992" "9007199254740993"
    = Normal true ∧
  compareDottedVersions N integerOrZero 0 N.ltb
    "9007199254740992" "9007199254740993" = false ∧
  Number_of_segment "9007199254740993" = Fin 9007199254740992.
Proof. by vm_compute. Qed.

(** Another input on which the two part: the segment [Infinity] is coerced
    to [+Infinity], which is neither 0 nor an integer. *)
Lemma compareDottedVersions_Infinity_segment :
  isVersionGreaterThanOrEqual "Infinity" "1" = Normal true ∧
  compareDottedVersions N integerOrZero 0 N.ltb "Infinity" "1" = false ∧
  numberOrZero "Infinity" = PosInfinity.
Proof. by vm_compute. Qed.

(** C1, amended: for all version strings the code returns what the
    specified algorithm returns (false for an empty [v1]; otherwise strip the
    ['-'] suffixes, split on ['.'], compare most significant first with
    missing segments as 0, decide at the first difference, [true] when
    equal) once segments are coerced by [Number] with NaN replaced by 0.
    The coerced value is a non-negative integer or [+Infinity]; it is 0 for
    a segment that is not a numeric literal, the double nearest to the
    denoted integer for decimal digits, and so that integer itself below
    [2^53].  The three sample comparisons hold. *)
Theorem isVersionGreaterThanOrEqual_spec v1 v2 :
  isVersionGreaterThanOrEqual v1 v2 =
    Normal (compareDottedVersions Num numberOrZero (Fin 0) num_ltb v1 v2) ∧
  (∀ segment,
      numberOrZero segment = PosInfinity ∨ ∃ n, numberOrZero segment = Fin n) ∧
  (∀ segment,
      Number_of_segment segment = NaN → numberOrZero segment = Fin 0) ∧
  (∀ segment n,
      digits 10 segment = Some n → Number_of_segment segment = toDouble n) ∧
  (∀ segment n,
      digits 10 segment = Some n → n < 2 ^ 53 → numberOrZero segment = Fin n) ∧
  isVersionGreaterThanOrEqual "2.24.1" "2.24.0" = Normal true ∧
  isVersionGreaterThanOrEqual "2.23.9" "2.24.0" = Normal false ∧
  isVersionGreaterThanOrEqual "2.24" "2.24.0" = Normal true.
Proof.
  split; [apply isVersionGreaterThanOrEqual_algorithm |].
  split; [| split; [| split; [| split]]].
  - intros segment. unfold numberOrZero.
    pose proof (orZero_not_NaN (Number_of_segment segment)) as Hn.
    destruct (orZero (Number_of_segment segment)) as [| n |]; [done | | by left].
    right. by exists n.
  - intros segment H. unfold numberOrZero. by rewrite H.
  - apply Number_of_decimal.
  - intros segment n Hd Hn. unfold numberOrZero.
    rewrite (Number_of_decimal _ _ Hd), (toDouble_exact _ Hn).
    unfold orZero. simpl. destruct (N.eqb_spec n 0); simpl; congruence.
  - by vm_compute.
Qed.

Lemma isVersionGreaterThanOrEqual_spec_witness :
  isVersionGreaterThanOrEqual "2.24.1-ee" "2.24.0" =
    Normal (compareDottedVersions Num numberOrZero (Fin 0) num_ltb
              "2.24.1-ee" "2.24.0") ∧
  numberOrZero "24" = Fin 24 ∧
  numberOrZero "ee" = Fin 0.
Proof.
  destruct (isVersionGreaterThanOrEqual_spec "2.24.1-ee" "2.24.0")
    as (Halg & _ & Hnan & _ & Hdec & _).
  split; [exact Halg | split].
  - apply (Hdec "24" 24); [reflexivity | reflexivity].
  - apply (Hnan "ee"). reflexivity.
Defined.



End VersionFacts.

(** * Properties of the helpers built on [semver] *)

Module SemverFacts.

Import Js Semver Version.

Local Open Scope N_scope.

Lemma append_cons x (a b : string) : String x a +:+ b = String x (a +:+ b).
Proof. reflexivity. Qed.

Lemma append_nil (b : string) : EmptyString +:+ b = b.
Proof. reflexivity. Qed.

Lemma append_assoc (a b c : string) : (a +:+ b) +:+ c = a +:+ (b +:+ c).
Proof.
  induction a as [| x a IH]; [done |].
  by rewrite !append_cons, IH.
Qed.

Lemma length_append (a b : string) :
  String.length (a +:+ b) = (String.length a + String.length b)%nat.
Proof.
  induction a as [| x a IH]; [done |].
  rewrite append_cons. simpl. by rewrite IH.
Qed.

Lemma allDecimal_append (a b : string) :
  allDecimal (a +:+ b) = allDecimal a && allDecimal b.
Proof.
  induction a as [| x a IH]; [done |].
  rewrite append_cons. simpl. by rewrite IH, andb_assoc.
Qed.

Lemma digitsAcc_append radix acc (a b : string) :
  digitsAcc radix acc (a +:+ b) =
    match digitsAcc radix acc a with
    | Some acc' => digitsAcc radix acc' b
    | None => None
    end.
Proof.
  revert acc. induction a as [| x a IH]; intros acc; [done |].
  rewrite append_cons. simpl. destruct (digitOf radix x); [apply IH | done].
Qed.

(** *** Decimal digits of a number *)

Lemma charCode_digit d : d < 10 → charCode (ascii_of_N (48 + d)) = 48 + d.
Proof. intros H. unfold charCode. apply N_ascii_embedding. lia. Qed.

Lemma isDecimalDigit_digit d : d < 10 → isDecimalDigit (ascii_of_N (48 + d)) = true.
Proof. intros H. apply VersionFacts.isDecimalDigit_range. rewrite charCode_digit; lia. Qed.

Lemma digitOf_digit d : d < 10 → digitOf 10 (ascii_of_N (48 + d)) = Some d.
Proof.
  intros H. rewrite (VersionFacts.isDecimalDigit_digitOf _ (isDecimalDigit_digit d H)).
  rewrite charCode_digit by done. f_equal. lia.
Qed.

Lemma mod_10_lt n : n mod 10 < 10.
Proof. apply N.mod_lt. lia. Qed.

Lemma toDecimal_acc fuel n acc :
  toDecimal fuel n acc = toDecimal fuel n EmptyString +:+ acc.
Proof.
  revert n acc. induction fuel as [| f IH]; intros n acc; [done |].
  simpl. destruct (n <? 10); [done |].
  rewrite (IH _ (String _ acc)), (IH _ (String _ EmptyString)).
  by rewrite append_assoc.
Qed.

Lemma toDecimal_S fuel n :
  toDecimal (S fuel) n EmptyString =
    if n <? 10 then String (ascii_of_N (48 + n mod 10)) EmptyString
    else toDecimal fuel (n / 10) EmptyString
           +:+ String (ascii_of_N (48 + n mod 10)) EmptyString.
Proof. simpl. destruct (n <? 10); [done |]. apply toDecimal_acc. Qed.

Lemma toDecimal_allDecimal fuel n : allDecimal (toDecimal fuel n EmptyString) = true.
Proof.
  revert n. induction fuel as [| f IH]; intros n.
  - simpl. by rewrite (isDecimalDigit_digit _ (mod_10_lt n)).
  - rewrite toDecimal_S. destruct (n <? 10).
    + simpl. by rewrite (isDecimalDigit_digit _ (mod_10_lt n)).
    + rewrite allDecimal_append, IH. simpl.
      by rewrite (isDecimalDigit_digit _ (mod_10_lt n)).
Qed.

Lemma log2_div_10 n f :
  10 <= n → (N.to_nat (N.log2 n) ≤ S f)%nat → (N.to_nat (N.log2 (n / 10)) ≤ f)%nat.
Proof.
  intros Hn Hf.
  assert (0 < n / 10) as Hpos.
  { apply N.div_str_pos. lia. }
  assert (N.log2 (n / 10) < N.log2 n); [| lia].
  apply N.log2_lt_pow2; [done |].
  pose proof (N.log2_spec n ltac:(lia)) as [_ Hup].
  rewrite N.pow_succ_r' in Hup.
  pose proof (N.Div0.mul_div_le n 10). lia.
Qed.

Lemma toDecimal_value fuel n :
  (N.to_nat (N.log2 n) ≤ fuel)%nat →
  digitsAcc 10 0 (toDecimal fuel n EmptyString) = Some n.
Proof.
  revert n. induction fuel as [| f IH]; intros n Hf.
  - assert (n < 2) as Hn.
    { destruct (N.eq_dec n 0) as [-> | Hne]; [lia |].
      assert (N.log2 n < 1) as H by lia.
      apply N.log2_lt_pow2 in H; [| lia].
      by change (2 ^ 1) with 2 in H. }
    simpl. rewrite (digitOf_digit _ (mod_10_lt n)).
    rewrite N.mod_small by lia. done.
  - rewrite toDecimal_S. destruct (N.ltb_spec n 10) as [Hn | Hn].
    + simpl. rewrite (digitOf_digit _ (mod_10_lt n)).
      rewrite N.mod_small by lia. done.
    + rewrite digitsAcc_append, (IH _ (log2_div_10 n f Hn Hf)).
      simpl. rewrite (digitOf_digit _ (mod_10_lt n)).
      f_equal. pose proof (N.div_mod' n 10). lia.
Qed.

Lemma toDecimal_length fuel n (k : nat) :
  n < 10 ^ N.of_nat (S k) →
  (1 ≤ String.length (toDecimal fuel n EmptyString) ≤ S k)%nat.
Proof.
  revert n k. induction fuel as [| f IH]; intros n k Hn.
  - simpl. lia.
  - rewrite toDecimal_S. destruct (N.ltb_spec n 10) as [Hlt | Hge].
    + simpl. lia.
    + rewrite length_append. simpl.
      destruct k as [| k].
      { change (10 ^ N.of_nat 1) with 10 in Hn. lia. }
      assert (n / 10 < 10 ^ N.of_nat (S k)) as Hdiv.
      { apply N.Div0.div_lt_upper_bound.
        rewrite <- N.pow_succ_r'. by rewrite <- Nat2N.inj_succ. }
      specialize (IH _ _ Hdiv). lia.
Qed.

Lemma toDecimal_head fuel n :
  (N.to_nat (N.log2 n) ≤ fuel)%nat → 0 < n →
  ∃ c s, toDecimal fuel n EmptyString = String c s ∧ c ≠ "0"%char.
Proof.
  revert n. induction fuel as [| f IH]; intros n Hf Hpos.
  - assert (n = 1) as ->.
    { assert (N.log2 n < 1) as H by lia.
      apply N.log2_lt_pow2 in H; [| lia].
      change (2 ^ 1) with 2 in H. lia. }
    by eexists _, _.
  - rewrite toDecimal_S. destruct (N.ltb_spec n 10) as [Hlt | Hge].
    + eexists _, _. split; [done |].
      intros Heq. apply (f_equal charCode) in Heq.
      rewrite charCode_digit in Heq by apply mod_10_lt.
      rewrite N.mod_small in Heq by done.
      change (charCode "0") with 48 in Heq. lia.
    + destruct (IH (n / 10)) as (c & s' & -> & Hc).
      * by apply log2_div_10.
      * apply N.div_str_pos. lia.
      * rewrite append_cons. by eexists _, _.
Qed.

Lemma numberToString_zero : numberToString 0 = "0"%string.
Proof. reflexivity. Qed.

Lemma MAX_SAFE_INTEGER_digits n :
  n <= MAX_SAFE_INTEGER → n < 10 ^ N.of_nat (S 15).
Proof.
  unfold MAX_SAFE_INTEGER. intros H.
  eapply N.le_lt_trans; [exact H |]. by vm_compute.
Qed.

(** The decimal digits of a safe integer form a component that coercion
    accepts and strict parsing reads back. *)
Lemma numberToString_component n :
  n <= MAX_SAFE_INTEGER →
  allDecimal (numberToString n) = true ∧
  componentLength (numberToString n) = true ∧
  numericIdentifier (numberToString n) = Some n.
Proof.
  intros Hn. unfold numberToString.
  split; [apply toDecimal_allDecimal | split].
  - pose proof (toDecimal_length (N.to_nat (N.log2 n)) n 15
                  (MAX_SAFE_INTEGER_digits n Hn)) as Hlen.
    unfold componentLength, MAX_SAFE_COMPONENT_LENGTH.
    apply andb_true_iff. split; apply Nat.leb_le; lia.
  - unfold numericIdentifier.
    assert (hasLeadingZero (toDecimal (N.to_nat (N.log2 n)) n EmptyString) = false)
      as ->.
    { destruct (N.eq_dec n 0) as [-> | Hne]; [done |].
      destruct (toDecimal_head (N.to_nat (N.log2 n)) n) as (c & s & -> & Hc);
        [done | lia |].
      unfold hasLeadingZero. destruct s; [done |].
      by apply Ascii.eqb_neq. }
    assert (digits 10 (toDecimal (N.to_nat (N.log2 n)) n EmptyString) = Some n)
      as ->.
    { pose proof (toDecimal_value (N.to_nat (N.log2 n)) n (reflexivity _)) as Hv.
      unfold digits.
      destruct (toDecimal (N.to_nat (N.log2 n)) n EmptyString) eqn:E; [| done].
      pose proof (toDecimal_length (N.to_nat (N.log2 n)) n 15
                    (MAX_SAFE_INTEGER_digits n Hn)) as Hlen.
      rewrite E in Hlen. simpl in Hlen. lia. }
    by rewrite (proj2 (N.leb_le _ _) Hn).
Qed.

(** *** Coercion of a normalized version string *)

Lemma spanDigits_append d r :
  allDecimal d = true → spanDigits r = (EmptyString, r) →
  spanDigits (d +:+ r) = (d, r).
Proof.
  intros Hd Hr. induction d as [| c d IH]; [done |].
  simpl in Hd. apply andb_true_iff in Hd as [Hc Hd].
  rewrite append_cons. simpl. by rewrite Hc, (IH Hd).
Qed.

Lemma spanDigits_all d : allDecimal d = true → spanDigits d = (d, EmptyString).
Proof.
  intros Hd. induction d as [| c d IH]; [done |].
  simpl in Hd. apply andb_true_iff in Hd as [Hc Hd].
  simpl. by rewrite Hc, (IH Hd).
Qed.

Lemma coerceMatch_dotted (a b c : string) :
  allDecimal a = true → componentLength a = true →
  allDecimal b = true → componentLength b = true →
  allDecimal c = true → componentLength c = true →
  coerceMatch false (a +:+ "." +:+ b +:+ "." +:+ c) = Some (a, Some b, Some c).
Proof.
  intros Ha La Hb Lb Hc Lc.
  assert (spanDigits (a +:+ "." +:+ b +:+ "." +:+ c)
          = (a, "." +:+ b +:+ "." +:+ c)) as Hspan
    by (by apply spanDigits_append).
  destruct a as [| x a].
  { by vm_compute in La. }
  rewrite append_cons in *. simpl in Ha.
  apply andb_true_iff in Ha as [Hx Ha].
  unfold coerceMatch; fold coerceMatch. rewrite Hx, Hspan, La.
  unfold matchComponents, optionalComponent.
  rewrite append_cons, append_nil.
  rewrite (spanDigits_append b ("." +:+ c) Hb) by done.
  rewrite Lb, append_cons, append_nil.
  by rewrite (spanDigits_all c Hc), Lc.
Qed.

Lemma numericIdentifier_bound s n :
  numericIdentifier s = Some n → n <= MAX_SAFE_INTEGER.
Proof.
  unfold numericIdentifier. destruct (hasLeadingZero s); [done |].
  destruct (digits 10 s) as [m |]; [| done].
  destruct (N.leb_spec m MAX_SAFE_INTEGER); [| done].
  by intros [= <-].
Qed.

(** What [coerce] returns has safe-integer components. *)
Lemma coerce_bound v sv :
  coerce v = Some sv →
  major sv <= MAX_SAFE_INTEGER ∧ minor sv <= MAX_SAFE_INTEGER ∧
  patch sv <= MAX_SAFE_INTEGER.
Proof.
  unfold coerce. destruct (coerceMatch false v) as [[[ma mi] pa] |]; [| done].
  unfold parseMain.
  destruct (numericIdentifier ma) as [x |] eqn:Ex; [| done].
  destruct (numericIdentifier (default "0"%string mi)) as [y |] eqn:Ey; [| done].
  destruct (numericIdentifier (default "0"%string pa)) as [z |] eqn:Ez; [| done].
  simpl. intros [= <-]. simpl.
  repeat split; eapply numericIdentifier_bound; eassumption.
Qed.

(** Coercing the normalized string of a version gives the version back. *)
Lemma coerce_version sv :
  major sv <= MAX_SAFE_INTEGER → minor sv <= MAX_SAFE_INTEGER →
  patch sv <= MAX_SAFE_INTEGER →
  coerce (version sv) = Some sv.
Proof.
  destruct sv as [x y z]. simpl. intros Hx Hy Hz.
  destruct (numberToString_component x Hx) as (Ax & Lx & Nx).
  destruct (numberToString_component y Hy) as (Ay & Ly & Ny).
  destruct (numberToString_component z Hz) as (Az & Lz & Nz).
  unfold coerce, version. simpl.
  rewrite (coerceMatch_dotted _ _ _ Ax Lx Ay Ly Az Lz).
  simpl. unfold parseMain. by rewrite Nx, Ny, Nz.
Qed.

Lemma compareMain_precedes a b :
  match compareMain a b with Lt => false | _ => true end = true ↔
  precedes_or_equal b a.
Proof.
  unfold compareMain, precedes_or_equal.
  destruct (N.compare_spec (major a) (major b));
    destruct (N.compare_spec (minor a) (minor b));
    destruct (N.compare_spec (patch a) (patch b));
    split; try done; try lia.
Qed.

(** *** The claims *)

(** C9: [extractMajorVersion] is idempotent on its non-null results: when
    it returns a string for [v], applying it to that string returns the
    same string. *)
Theorem extractMajorVersion_idempotent v out :
  extractMajorVersion v = Some out → extractMajorVersion out = Some out.
Proof.
  unfold extractMajorVersion, valid.
  destruct (coerce v) as [sv |] eqn:E; [| done].
  simpl. intros [= <-].
  destruct (coerce_bound v sv E) as (Hx & Hy & Hz).
  by rewrite (coerce_version sv Hx Hy Hz).
Qed.

Lemma extractMajorVersion_idempotent_witness :
  extractMajorVersion "2.1.0" = Some "2.1.0"%string.
Proof.
  apply (extractMajorVersion_idempotent "v2.1-beta").
  reflexivity.
Defined.

(** C5: [checkVersionCompatibility] returns [true] exactly when both the
    running version and the importing version coerce and the coerced
    running version is at least the coerced importing version in
    major, then minor, then patch order, and [false] exactly when both
    coerce and it is not; "2.25.0" is compatible with "2.24.1" and "2.24.0"
    is not. *)
Theorem checkVersionCompatibility_spec runningVersion importingVersion :
  (checkVersionCompatibility runningVersion importingVersion = Normal true ↔
   ∃ a b, coerce runningVersion = Some a ∧ coerce importingVersion = Some b ∧
          precedes_or_equal b a) ∧
  (checkVersionCompatibility runningVersion importingVersion = Normal false ↔
   ∃ a b, coerce runningVersion = Some a ∧ coerce importingVersion = Some b ∧
          ¬ precedes_or_equal b a) ∧
  checkVersionCompatibility "2.25.0" "2.24.1" = Normal true ∧
  checkVersionCompatibility "2.24.0" "2.24.1" = Normal false.
Proof.
  unfold checkVersionCompatibility at 1 2, gte.
  destruct (coerce runningVersion) as [a |], (coerce importingVersion) as [b |].
  2-4: repeat split; try done; by intros (a' & b' & ? & ? & _).
  pose proof (compareMain_precedes a b) as Hcmp.
  destruct (match compareMain a b with Lt => false | _ => true end) eqn:E.
  - repeat split; try done.
    + intros _. exists a, b. by rewrite <- Hcmp.
    + intros (a' & b' & [= <-] & [= <-] & Hn). exfalso. by apply Hn, Hcmp.
  - repeat split; try done.
    + intros (a' & b' & [= <-] & [= <-] & Hp). exfalso. by apply Hcmp in Hp.
    + intros _. exists a, b. repeat split; try done.
      intros Hp. by apply Hcmp in Hp.
Qed.

Lemma checkVersionCompatibility_spec_witness :
  checkVersionCompatibility "v2.25.0-ee" "2.24.1" = Normal true ∧
  ¬ precedes_or_equal (mkSemVer 2 24 1) (mkSemVer 2 24 0).
Proof.
  destruct (checkVersionCompatibility_spec "v2.25.0-ee" "2.24.1") as (Ht & _).
  destruct (checkVersionCompatibility_spec "2.24.0" "2.24.1")
    as (_ & Hf & _ & Hex).
  split.
  - apply Ht. exists (mkSemVer 2 25 0), (mkSemVer 2 24 1).
    split; [reflexivity | split; [reflexivity |]].
    unfold precedes_or_equal. simpl. lia.
  - apply Hf in Hex as (a & b & Ha & Hb & Hn).
    vm_compute in Ha, Hb.
    injection Ha as <-. injection Hb as <-. exact Hn.
Defined.

(** When either string has no recognizable version, the comparison is not
    reached: building a version object from [null] raises. *)
Lemma checkVersionCompatibility_raises runningVersion importingVersion :
  checkVersionCompatibility runningVersion importingVersion = ThrowTypeError ↔
  coerce runningVersion = None ∨ coerce importingVersion = None.
Proof.
  unfold checkVersionCompatibility, gte.
  destruct (coerce runningVersion), (coerce importingVersion);
    split; try done; (by left) || (by right) || by intros [|].
Qed.

End SemverFacts.

(** * The dotted-version comparison as an order *)

Module VersionOrderFacts.

Import Js Version.

Local Open Scope N_scope.

Lemma num_ltb_irrefl a : num_ltb a a = false.
Proof. destruct a; simpl; try done. apply N.ltb_irrefl. Qed.

Lemma num_ltb_trans a b c :
  num_ltb a b = true → num_ltb b c = true → num_ltb a c = true.
Proof.
  destruct a, b, c; simpl; try done.
  intros H1%N.ltb_lt H2%N.ltb_lt. apply N.ltb_lt. lia.
Qed.

(** Numbers other than NaN are totally ordered. *)
Lemma num_ltb_cases a b :
  a ≠ NaN → b ≠ NaN →
  (num_ltb a b = true ∧ num_ltb b a = false) ∨
  (a = b ∧ num_ltb a b = false ∧ num_ltb b a = false) ∨
  (num_ltb b a = true ∧ num_ltb a b = false).
Proof.
  destruct a as [| x |], b as [| y |]; simpl; try done; intros _ _.
  - destruct (N.lt_trichotomy x y) as [H | [-> | H]].
    + left. split; [by apply N.ltb_lt | apply N.ltb_ge; lia].
    + right; left. by rewrite N.ltb_irrefl.
    + right; right. split; [by apply N.ltb_lt | apply N.ltb_ge; lia].
  - by left.
  - by right; right.
  - by right; left.
Qed.

Lemma firstDifference_cons x y (l1 l2 : list Num) :
  firstDifference Num num_ltb (x :: l1) (y :: l2) =
    if num_ltb x y || num_ltb y x then num_ltb y x
    else firstDifference Num num_ltb l1 l2.
Proof. reflexivity. Qed.

Lemma firstDifference_refl (l : list Num) : firstDifference Num num_ltb l l = true.
Proof.
  induction l as [| x l IH]; [done |].
  by rewrite firstDifference_cons, num_ltb_irrefl.
Qed.

Lemma firstDifference_total (l1 l2 : list Num) :
  firstDifference Num num_ltb l1 l2 = true ∨
  firstDifference Num num_ltb l2 l1 = true.
Proof.
  revert l2. induction l1 as [| x l1 IH]; intros [| y l2]; try (by left).
  rewrite !firstDifference_cons.
  destruct (num_ltb x y) eqn:Exy, (num_ltb y x) eqn:Eyx; simpl; auto.
Qed.

Lemma firstDifference_trans (l1 l2 l3 : list Num) :
  length l1 = length l2 → length l2 = length l3 →
  Forall (fun a => a ≠ NaN) l1 → Forall (fun a => a ≠ NaN) l2 →
  Forall (fun a => a ≠ NaN) l3 →
  firstDifference Num num_ltb l1 l2 = true →
  firstDifference Num num_ltb l2 l3 = true →
  firstDifference Num num_ltb l1 l3 = true.
Proof.
  revert l2 l3.
  induction l1 as [| x l1 IH]; intros [| y l2] [| z l3]; try done.
  intros [= L12] [= L23].
  intros [Hx F1]%Forall_cons [Hy F2]%Forall_cons [Hz F3]%Forall_cons.
  rewrite !firstDifference_cons.
  destruct (num_ltb_cases x y Hx Hy) as [[Exy Eyx] | [[-> [Exy Eyx]] | [Eyx Exy]]];
    rewrite ?Exy, ?Eyx; simpl; try done.
  - destruct (num_ltb_cases y z Hy Hz) as [[Eyz Ezy] | [[-> [Eyz Ezy]] | [Ezy Eyz]]];
      rewrite ?Eyz, ?Ezy; simpl; try done.
    by apply IH.
  - intros _.
    destruct (num_ltb_cases y z Hy Hz) as [[Eyz Ezy] | [[-> [Eyz Ezy]] | [Ezy Eyz]]];
      rewrite ?Eyz, ?Ezy; simpl; try done; intros _.
    + by rewrite Eyx, orb_true_r.
    + by rewrite (num_ltb_trans z y x Ezy Eyx), orb_true_r.
Qed.

(** *** Padding *)

Lemma padTo_extend (t : list Num) (n m : nat) :
  (length t ≤ n)%nat → (n ≤ m)%nat →
  padTo Num (Fin 0) m t = padTo Num (Fin 0) n t ++ replicate (m - n) (Fin 0).
Proof.
  intros Ht Hn. unfold padTo.
  rewrite <- app_assoc, <- replicate_add. do 2 f_equal. lia.
Qed.

Lemma firstDifference_app_same (l1 l2 z : list Num) :
  length l1 = length l2 →
  firstDifference Num num_ltb (l1 ++ z) (l2 ++ z) =
    firstDifference Num num_ltb l1 l2.
Proof.
  revert l2. induction l1 as [| x l1 IH]; intros [| y l2]; try done.
  - intros _. simpl. apply firstDifference_refl.
  - intros [= L]. simpl app. rewrite !firstDifference_cons.
    destruct (num_ltb x y || num_ltb y x); [done | by apply IH].
Qed.

(** Padding further than the longer tuple does not change the answer. *)
Lemma firstDifference_padTo (t1 t2 : list Num) (m : nat) :
  (length t1 `max` length t2 ≤ m)%nat →
  firstDifference Num num_ltb (padTo Num (Fin 0) m t1) (padTo Num (Fin 0) m t2) =
    firstDifference Num num_ltb
      (padTo Num (Fin 0) (length t1 `max` length t2) t1)
      (padTo Num (Fin 0) (length t1 `max` length t2) t2).
Proof.
  intros Hm.
  rewrite (padTo_extend t1 (length t1 `max` length t2) m) by lia.
  rewrite (padTo_extend t2 (length t1 `max` length t2) m) by lia.
  apply firstDifference_app_same.
  rewrite !VersionFacts.length_padTo by lia. done.
Qed.

Lemma versionTuple_numbers v :
  Forall (fun a => a ≠ NaN) (versionTuple Num numberOrZero v).
Proof.
  unfold versionTuple. apply Forall_fmap, Forall_true.
  intros segment. apply VersionFacts.orZero_not_NaN.
Qed.

Lemma padTo_numbers (t : list Num) m :
  Forall (fun a => a ≠ NaN) t →
  Forall (fun a => a ≠ NaN) (padTo Num (Fin 0) m t).
Proof.
  intros Ht. unfold padTo. apply Forall_app. split; [done |].
  by apply Forall_replicate.
Qed.

(** The answer for a non-empty [version1], with the tuples padded to any
    common length [m] that both fit in. *)
Lemma isVersionGreaterThanOrEqual_padded version1 version2 (m : nat) :
  version1 ≠ EmptyString →
  (length (versionTuple Num numberOrZero version1) ≤ m)%nat →
  (length (versionTuple Num numberOrZero version2) ≤ m)%nat →
  isVersionGreaterThanOrEqual version1 version2 =
    Normal (firstDifference Num num_ltb
              (padTo Num (Fin 0) m (versionTuple Num numberOrZero version1))
              (padTo Num (Fin 0) m (versionTuple Num numberOrZero version2))).
Proof.
  intros Hne H1 H2.
  rewrite VersionFacts.isVersionGreaterThanOrEqual_algorithm.
  destruct version1 as [| c v1]; [done |].
  unfold compareDottedVersions. f_equal.
  symmetry. apply firstDifference_padTo. lia.
Qed.

Lemma isVersionGreaterThanOrEqual_true_nonempty version1 version2 :
  isVersionGreaterThanOrEqual version1 version2 = Normal true →
  version1 ≠ EmptyString.
Proof. by intros H ->. Qed.

(** *** Order properties *)

(** X1: Every non-empty version is at least itself; the empty version is not. *)
Theorem isVersionGreaterThanOrEqual_refl v :
  isVersionGreaterThanOrEqual v v = Normal (str_truthy v).
Proof.
  destruct v as [| c v]; [done |].
  rewrite (isVersionGreaterThanOrEqual_padded _ _
             (length (versionTuple Num numberOrZero (String c v)))) by done.
  by rewrite firstDifference_refl.
Qed.

(** X2: Any two non-empty versions are comparable. *)
Theorem isVersionGreaterThanOrEqual_connex v1 v2 :
  v1 ≠ EmptyString → v2 ≠ EmptyString →
  isVersionGreaterThanOrEqual v1 v2 = Normal true ∨
  isVersionGreaterThanOrEqual v2 v1 = Normal true.
Proof.
  intros H1 H2.
  set (m := (length (versionTuple Num numberOrZero v1)
             `max` length (versionTuple Num numberOrZero v2))%nat).
  rewrite (isVersionGreaterThanOrEqual_padded v1 v2 m) by (done || lia).
  rewrite (isVersionGreaterThanOrEqual_padded v2 v1 m) by (done || lia).
  destruct (firstDifference_total
              (padTo Num (Fin 0) m (versionTuple Num numberOrZero v1))
              (padTo Num (Fin 0) m (versionTuple Num numberOrZero v2)))
    as [-> | ->]; auto.
Qed.

Lemma isVersionGreaterThanOrEqual_connex_witness :
  isVersionGreaterThanOrEqual "2.24.1-ee" "2.x.7" = Normal true ∨
  isVersionGreaterThanOrEqual "2.x.7" "2.24.1-ee" = Normal true.
Proof. apply (isVersionGreaterThanOrEqual_connex "2.24.1-ee" "2.x.7"); discriminate. Defined.

(** X3: The comparison is transitive. *)
Theorem isVersionGreaterThanOrEqual_trans v1 v2 v3 :
  isVersionGreaterThanOrEqual v1 v2 = Normal true →
  isVersionGreaterThanOrEqual v2 v3 = Normal true →
  isVersionGreaterThanOrEqual v1 v3 = Normal true.
Proof.
  intros H12 H23.
  pose proof (isVersionGreaterThanOrEqual_true_nonempty _ _ H12) as N1.
  pose proof (isVersionGreaterThanOrEqual_true_nonempty _ _ H23) as N2.
  set (t1 := versionTuple Num numberOrZero v1) in *.
  set (m := ((length (versionTuple Num numberOrZero v1)
              `max` length (versionTuple Num numberOrZero v2))
             `max` length (versionTuple Num numberOrZero v3))%nat).
  rewrite (isVersionGreaterThanOrEqual_padded v1 v2 m) in H12 by (done || lia).
  rewrite (isVersionGreaterThanOrEqual_padded v2 v3 m) in H23 by (done || lia).
  rewrite (isVersionGreaterThanOrEqual_padded v1 v3 m) by (done || lia).
  injection H12 as H12. injection H23 as H23. f_equal.
  eapply firstDifference_trans; [| | | | | exact H12 | exact H23];
    rewrite ?VersionFacts.length_padTo by lia;
    try done; apply padTo_numbers, versionTuple_numbers.
Qed.

Lemma isVersionGreaterThanOrEqual_trans_witness :
  isVersionGreaterThanOrEqual "3" "2.24.0" = Normal true.
Proof.
  apply (isVersionGreaterThanOrEqual_trans "3" "2.24.1-ee.3" "2.24.0");
    reflexivity.
Defined.

(** *** Suffixes and trailing zeros *)

Lemma stripSuffix_append_dash v x :
  stripSuffix (v +:+ String "-" x) = stripSuffix v.
Proof.
  induction v as [| c v IH]; [done |].
  rewrite SemverFacts.append_cons. simpl. by rewrite IH.
Qed.

Lemma stripSuffix_append v w :
  occurs "-" w = false →
  stripSuffix (v +:+ w) =
    if occurs "-" v then stripSuffix v else stripSuffix v +:+ w.
Proof.
  intros Hw. induction v as [| c v IH].
  - simpl. rewrite SemverFacts.append_nil.
    induction w as [| d w IHw]; [done |].
    simpl in *. apply orb_false_iff in Hw as [Hd Hw].
    rewrite Hd. by rewrite (IHw Hw).
  - rewrite SemverFacts.append_cons. simpl.
    destruct (Ascii.eqb c "-"); [done |]. simpl.
    rewrite IH. by destruct (occurs "-" v).
Qed.

Lemma split_append sep a b :
  split sep (a +:+ String sep b) = split sep a ++ split sep b.
Proof.
  unfold split. induction a as [| c a IH].
  - rewrite SemverFacts.append_nil. simpl.
    rewrite Ascii.eqb_refl. by destruct (splitPieces sep b).
  - rewrite SemverFacts.append_cons. simpl.
    destruct (splitPieces sep (a +:+ String sep b)) as [h t].
    destruct (splitPieces sep a) as [ha ta].
    destruct (splitPieces sep b) as [hb tb].
    simpl in IH. injection IH as -> ->.
    by destruct (Ascii.eqb c sep).
Qed.

(** The tuple of a version with [.0] appended: unchanged when the version
    has a suffix, one more zero otherwise. *)
Lemma versionTuple_append_zero v :
  versionTuple Num numberOrZero (v +:+ ".0") =
    if occurs "-" v then versionTuple Num numberOrZero v
    else versionTuple Num numberOrZero v ++ [Fin 0].
Proof.
  unfold versionTuple. rewrite stripSuffix_append by done.
  destruct (occurs "-" v); [done |].
  change (".0"%string) with (String "." "0").
  by rewrite split_append, fmap_app.
Qed.

Lemma padTo_snoc_zero (t : list Num) (m : nat) :
  (length t < m)%nat →
  padTo Num (Fin 0) m (t ++ [Fin 0]) = padTo Num (Fin 0) m t.
Proof.
  intros Hm. unfold padTo. rewrite <- app_assoc, length_app. simpl.
  f_equal. change (Fin 0 :: replicate (m - (length t + 1)) (Fin 0))
    with (replicate (S (m - (length t + 1))) (Fin 0)).
  f_equal. lia.
Qed.

Lemma padTo_append_zero v (m : nat) :
  (length (versionTuple Num numberOrZero v) < m)%nat →
  padTo Num (Fin 0) m (versionTuple Num numberOrZero (v +:+ ".0")) =
    padTo Num (Fin 0) m (versionTuple Num numberOrZero v).
Proof.
  intros Hm. rewrite versionTuple_append_zero.
  destruct (occurs "-" v); [done |]. by apply padTo_snoc_zero.
Qed.

Lemma length_versionTuple_append_zero v :
  (length (versionTuple Num numberOrZero (v +:+ ".0"))
   ≤ S (length (versionTuple Num numberOrZero v)))%nat.
Proof.
  rewrite versionTuple_append_zero.
  destruct (occurs "-" v); [lia |]. rewrite length_app. simpl. lia.
Qed.

Lemma append_nonempty (v w : string) : v ≠ EmptyString → v +:+ w ≠ EmptyString.
Proof. by destruct v. Qed.

(** X4: Whatever follows the first ['-'] of either version is ignored: two
    versions that differ only in their suffixes compare alike. *)
Theorem isVersionGreaterThanOrEqual_suffix v1 v2 x y :
  v1 ≠ EmptyString →
  isVersionGreaterThanOrEqual (v1 +:+ "-" +:+ x) (v2 +:+ "-" +:+ y) =
    isVersionGreaterThanOrEqual v1 v2.
Proof.
  intros Hne.
  rewrite !VersionFacts.isVersionGreaterThanOrEqual_algorithm.
  destruct v1 as [| c v1]; [done |].
  change ("-" +:+ x) with (String "-" x). change ("-" +:+ y) with (String "-" y).
  rewrite SemverFacts.append_cons.
  unfold compareDottedVersions, versionTuple.
  rewrite <- SemverFacts.append_cons.
  by rewrite !stripSuffix_append_dash.
Qed.

Lemma isVersionGreaterThanOrEqual_suffix_witness :
  isVersionGreaterThanOrEqual "2.24.0-ee.1" "2.24.0-rc" =
    isVersionGreaterThanOrEqual "2.24.0" "2.24.0".
Proof.
  apply (isVersionGreaterThanOrEqual_suffix "2.24.0" "2.24.0" "ee.1" "rc").
  discriminate.
Defined.

(** X5: Appending [.0] to either version does not change the answer. *)
Theorem isVersionGreaterThanOrEqual_trailing_zero v1 v2 :
  v1 ≠ EmptyString →
  isVersionGreaterThanOrEqual (v1 +:+ ".0") v2 =
    isVersionGreaterThanOrEqual v1 v2 ∧
  isVersionGreaterThanOrEqual v1 (v2 +:+ ".0") =
    isVersionGreaterThanOrEqual v1 v2.
Proof.
  intros Hne.
  set (m := S (length (versionTuple Num numberOrZero v1)
               `max` length (versionTuple Num numberOrZero v2))).
  pose proof (length_versionTuple_append_zero v1).
  pose proof (length_versionTuple_append_zero v2).
  rewrite (isVersionGreaterThanOrEqual_padded v1 v2 m) by (done || lia).
  split.
  - rewrite (isVersionGreaterThanOrEqual_padded (v1 +:+ ".0") v2 m)
      by (by apply append_nonempty || lia).
    rewrite padTo_append_zero by lia. done.
  - rewrite (isVersionGreaterThanOrEqual_padded v1 (v2 +:+ ".0") m)
      by (done || lia).
    rewrite padTo_append_zero by lia. done.
Qed.

Lemma isVersionGreaterThanOrEqual_trailing_zero_witness :
  isVersionGreaterThanOrEqual "2.24.0" "2.24.1" =
    isVersionGreaterThanOrEqual "2.24" "2.24.1".
Proof.
  apply (isVersionGreaterThanOrEqual_trailing_zero "2.24" "2.24.1").
  discriminate.
Defined.

End VersionOrderFacts.

(** * More on the connection cache *)

Module CacheTraceFacts.

Import ConnectionCache.

Section WithConnections.

Context {Conn : Type}.

Implicit Types (σ : gmap string (CacheEntry Conn)) (e : CacheEntry Conn).
Implicit Types (conn : Value Conn) (ts : option JsDate).

Lemma run_snoc (calls : list (Call Conn)) (c : Call Conn) σ :
  run (calls ++ [c]) σ = step c (run calls σ).
Proof. unfold run. by rewrite foldl_app. Qed.

(** X7: A lookup whose reference date is an invalid [Date] never finds the
    entry stale: the difference is NaN, the test [diffTime < 0] is false,
    and the stored connection is returned whatever its age. *)
Theorem invalid_reference_date_is_never_stale σ id e :
  σ !! id = Some e →
  (getCachedConnection id (Some InvalidDate) σ).1 = connection e.
Proof.
  intros He. rewrite CacheFacts.getCachedConnection_result, He.
  change (timeOf (Some InvalidDate)) with (@None Z).
  by destruct (timeOf (updatedAt <$> Some e)).
Qed.

End WithConnections.

Lemma invalid_reference_date_is_never_stale_witness :
  (getCachedConnection "ds-2" (Some InvalidDate) (run sampleCalls ∅)).1
  = VConn 8%nat.
Proof.
  apply (invalid_reference_date_is_never_stale (run sampleCalls ∅) "ds-2"
           (mkEntry (VConn 8%nat) (ValidDate 1500))).
  reflexivity.
Defined.

End CacheTraceFacts.

(** * The semver-based helpers as an order, and the two comparators together *)

Module SemverOrderFacts.

Import Js Semver Version.

Local Open Scope N_scope.

Lemma precedes_or_equal_trans a b c :
  precedes_or_equal a b → precedes_or_equal b c → precedes_or_equal a c.
Proof. unfold precedes_or_equal. lia. Qed.

Lemma checkVersionCompatibility_coerced r i a b :
  coerce r = Some a → coerce i = Some b →
  checkVersionCompatibility r i = Normal (satisfiesAtLeast (Some a) b).
Proof. unfold checkVersionCompatibility, gte. by intros -> ->. Qed.

Lemma checkVersionCompatibility_true r i :
  checkVersionCompatibility r i = Normal true →
  ∃ a b, coerce r = Some a ∧ coerce i = Some b ∧ precedes_or_equal b a.
Proof.
  unfold checkVersionCompatibility, gte.
  destruct (coerce r) as [a |], (coerce i) as [b |]; try done.
  intros [= H]. exists a, b. split; [done | split; [done |]].
  by apply SemverFacts.compareMain_precedes.
Qed.

Lemma satisfiesAtLeast_precedes a b :
  satisfiesAtLeast (Some a) b = true ↔ precedes_or_equal b a.
Proof. apply SemverFacts.compareMain_precedes. Qed.

(** X9: Compatibility is transitive: a running version that can import what was
    exported by [m] can import whatever [m] can import. *)
Theorem checkVersionCompatibility_trans r m i :
  checkVersionCompatibility r m = Normal true →
  checkVersionCompatibility m i = Normal true →
  checkVersionCompatibility r i = Normal true.
Proof.
  intros (a & b & Ha & Hb & Hab)%checkVersionCompatibility_true.
  intros (b' & c & Hb' & Hc & Hbc)%checkVersionCompatibility_true.
  assert (b' = b) as -> by congruence.
  rewrite (checkVersionCompatibility_coerced r i a c Ha Hc). f_equal.
  apply satisfiesAtLeast_precedes. by eapply precedes_or_equal_trans.
Qed.

Lemma checkVersionCompatibility_trans_witness :
  checkVersionCompatibility "v3" "2.24.1 (stable)" = Normal true.
Proof.
  apply (checkVersionCompatibility_trans "v3" "2.25.0-ee" "2.24.1 (stable)");
    reflexivity.
Defined.

(** X10: Both helpers accept the string that [extractMajorVersion] returns in
    place of the original: the normalized string coerces to the same
    version. *)
Theorem extractMajorVersion_preserves_comparisons v n w :
  extractMajorVersion v = Some n →
  coerce n = coerce v ∧
  checkVersionCompatibility n w = checkVersionCompatibility v w ∧
  checkVersionCompatibility w n = checkVersionCompatibility w v ∧
  isTooljetVersionWithNormalizedAppDefinitionSchem n =
    isTooljetVersionWithNormalizedAppDefinitionSchem v.
Proof.
  unfold extractMajorVersion, valid.
  destruct (coerce v) as [sv |] eqn:E; [| done].
  simpl. intros [= <-].
  destruct (SemverFacts.coerce_bound v sv E) as (Hx & Hy & Hz).
  pose proof (SemverFacts.coerce_version sv Hx Hy Hz) as Hn.
  unfold checkVersionCompatibility, isTooljetVersionWithNormalizedAppDefinitionSchem.
  by rewrite Hn, E.
Qed.

Lemma extractMajorVersion_preserves_comparisons_witness :
  checkVersionCompatibility "2.24.1" "2.25.0" =
    checkVersionCompatibility "v2.24.1-beta" "2.25.0".
Proof.
  apply (extractMajorVersion_preserves_comparisons "v2.24.1-beta" "2.24.1" "2.25.0").
  reflexivity.
Defined.

(** X11: A running version that can import data of a version with normalized
    app definitions has normalized app definitions itself. *)
Theorem normalized_schema_upward_closed r i :
  checkVersionCompatibility r i = Normal true →
  isTooljetVersionWithNormalizedAppDefinitionSchem i = true →
  isTooljetVersionWithNormalizedAppDefinitionSchem r = true.
Proof.
  intros (a & b & Ha & Hb & Hab)%checkVersionCompatibility_true.
  unfold isTooljetVersionWithNormalizedAppDefinitionSchem. rewrite Ha, Hb.
  rewrite !satisfiesAtLeast_precedes. intros Hb0.
  by eapply precedes_or_equal_trans.
Qed.

Lemma normalized_schema_upward_closed_witness :
  isTooljetVersionWithNormalizedAppDefinitionSchem "v3.1" = true.
Proof.
  apply (normalized_schema_upward_closed "v3.1" "2.24.0"); reflexivity.
Defined.

(** *** The dotted comparison on normalized versions *)

Lemma allDecimal_no_occurs c s :
  isDecimalDigit c = false → allDecimal s = true → occurs c s = false.
Proof.
  intros Hc. induction s as [| d s IH]; [done |].
  simpl. intros [Hd Hs]%andb_true_iff. rewrite (IH Hs), orb_false_r.
  destruct (Ascii.eqb_spec d c) as [-> |]; [congruence | done].
Qed.

Lemma occurs_append c (a b : string) :
  occurs c (a +:+ b) = occurs c a || occurs c b.
Proof.
  induction a as [| d a IH]; [done |].
  rewrite SemverFacts.append_cons. simpl. by rewrite IH, orb_assoc.
Qed.

Lemma stripSuffix_id s : occurs "-" s = false → stripSuffix s = s.
Proof.
  induction s as [| c s IH]; [done |].
  simpl. intros [Hc Hs]%orb_false_iff. by rewrite Hc, (IH Hs).
Qed.

Lemma split_single sep s : occurs sep s = false → split sep s = [s].
Proof.
  unfold split. induction s as [| c s IH]; [done |].
  simpl. intros [Hc Hs]%orb_false_iff. specialize (IH Hs).
  destruct (splitPieces sep s) as [h t]. injection IH as -> ->.
  by rewrite Hc.
Qed.

Lemma numberToString_number x :
  x <= MAX_SAFE_INTEGER →
  allDecimal (numberToString x) = true ∧ numberOrZero (numberToString x) = Fin x.
Proof.
  intros Hx.
  destruct (SemverFacts.numberToString_component x Hx) as (Hall & _ & Hid).
  split; [done |].
  assert (digits 10 (numberToString x) = Some x) as Hd.
  { revert Hid. unfold numericIdentifier.
    destruct (hasLeadingZero _); [done |].
    destruct (digits 10 (numberToString x)) as [n |]; [| done].
    by destruct (n <=? MAX_SAFE_INTEGER). }
  unfold numberOrZero.
  rewrite (VersionFacts.Number_of_decimal _ _ Hd).
  rewrite VersionFacts.toDouble_exact
    by (unfold MAX_SAFE_INTEGER in Hx; lia).
  unfold orZero. simpl. destruct (N.eqb_spec x 0); simpl; congruence.
Qed.

Lemma versionTuple_version sv :
  major sv <= MAX_SAFE_INTEGER → minor sv <= MAX_SAFE_INTEGER →
  patch sv <= MAX_SAFE_INTEGER →
  version sv ≠ EmptyString ∧
  versionTuple Num numberOrZero (version sv) =
    [Fin (major sv); Fin (minor sv); Fin (patch sv)].
Proof.
  destruct sv as [x y z]. simpl. intros Hx Hy Hz.
  destruct (numberToString_number x Hx) as (Ax & Nx).
  destruct (numberToString_number y Hy) as (Ay & Ny).
  destruct (numberToString_number z Hz) as (Az & Nz).
  unfold version. simpl. split.
  { destruct (numberToString x) eqn:E; [| done].
    by vm_compute in Nx. }
  assert (∀ c, isDecimalDigit c = false →
            occurs c (numberToString x) = false ∧
            occurs c (numberToString y) = false ∧
            occurs c (numberToString z) = false) as Hocc.
  { intros c Hc. by rewrite !(allDecimal_no_occurs c) by done. }
  destruct (Hocc "-"%char eq_refl) as (Dx & Dy & Dz).
  destruct (Hocc "."%char eq_refl) as (Px & Py & Pz).
  unfold versionTuple.
  rewrite stripSuffix_id
    by (rewrite !occurs_append, Dx, Dy, Dz; reflexivity).
  change ("." +:+ numberToString y +:+ "." +:+ numberToString z)
    with (String "." (numberToString y +:+ String "." (numberToString z))).
  rewrite !VersionOrderFacts.split_append, !split_single by done.
  simpl. by rewrite Nx, Ny, Nz.
Qed.

Lemma firstDifference_triples x1 y1 z1 x2 y2 z2 :
  firstDifference Num num_ltb [Fin x1; Fin y1; Fin z1] [Fin x2; Fin y2; Fin z2] =
    satisfiesAtLeast (Some (mkSemVer x1 y1 z1)) (mkSemVer x2 y2 z2).
Proof.
  unfold satisfiesAtLeast, compareMain. simpl. unfold N.ltb.
  rewrite (N.compare_antisym x1 x2), (N.compare_antisym y1 y2),
    (N.compare_antisym z1 z2).
  by destruct (x1 ?= x2), (y1 ?= y2), (z1 ?= z2).
Qed.

(** X12: On the strings that [extractMajorVersion] returns, the dotted comparison
    and the semver comparison give the same answer. *)
Theorem comparators_agree_on_normalized_versions v1 v2 n1 n2 :
  extractMajorVersion v1 = Some n1 →
  extractMajorVersion v2 = Some n2 →
  isVersionGreaterThanOrEqual n1 n2 = checkVersionCompatibility v1 v2 ∧
  isVersionGreaterThanOrEqual n1 n2 = checkVersionCompatibility n1 n2.
Proof.
  unfold extractMajorVersion, valid.
  destruct (coerce v1) as [a |] eqn:E1; [| done].
  destruct (coerce v2) as [b |] eqn:E2; [| done].
  simpl. intros [= <-] [= <-].
  destruct (SemverFacts.coerce_bound v1 a E1) as (Ha1 & Ha2 & Ha3).
  destruct (SemverFacts.coerce_bound v2 b E2) as (Hb1 & Hb2 & Hb3).
  destruct (versionTuple_version a Ha1 Ha2 Ha3) as (Na & Ta).
  destruct (versionTuple_version b Hb1 Hb2 Hb3) as (Nb & Tb).
  rewrite (checkVersionCompatibility_coerced v1 v2 a b E1 E2).
  rewrite (checkVersionCompatibility_coerced (version a) (version b) a b)
    by (by apply SemverFacts.coerce_version).
  rewrite (VersionOrderFacts.isVersionGreaterThanOrEqual_padded _ _ 3)
    by (done || rewrite ?Ta, ?Tb; simpl; lia).
  rewrite Ta, Tb. destruct a, b. simpl.
  split; f_equal; apply firstDifference_triples.
Qed.

Lemma comparators_agree_on_normalized_versions_witness :
  isVersionGreaterThanOrEqual "2.25.0" "2.24.1" =
    checkVersionCompatibility "v2.25" "2.24.1-ee".
Proof.
  apply (comparators_agree_on_normalized_versions "v2.25" "2.24.1-ee");
    reflexivity.
Defined.

End SemverOrderFacts.

(** * Properties of the string helpers *)

Module TextFacts.

Import Js Text.

Local Open Scope N_scope.

(** *** Lower case and trimming *)

Lemma toLowerChar_facts c :
  toLowerChar (toLowerChar c) = toLowerChar c ∧
  isWhiteSpace (toLowerChar c) = isWhiteSpace c ∧
  isUpperCase (toLowerChar c) = false.
Proof. destruct c as [[] [] [] [] [] [] [] []]; by vm_compute. Qed.

Lemma toLowerCase_idem s : toLowerCase (toLowerCase s) = toLowerCase s.
Proof.
  induction s as [| c s IH]; [done |].
  simpl. by rewrite IH, (proj1 (toLowerChar_facts c)).
Qed.

Lemma toLowerCase_empty s : toLowerCase s = EmptyString ↔ s = EmptyString.
Proof. by destruct s. Qed.

Lemma toLowerCase_trimStart s :
  toLowerCase (trimStart s) = trimStart (toLowerCase s).
Proof.
  induction s as [| c s IH]; [done |].
  simpl. rewrite (proj1 (proj2 (toLowerChar_facts c))).
  by destruct (isWhiteSpace c).
Qed.

Lemma toLowerCase_trimEnd s :
  toLowerCase (trimEnd s) = trimEnd (toLowerCase s).
Proof.
  induction s as [| c s IH]; [done |].
  simpl. rewrite <- IH, (proj1 (proj2 (toLowerChar_facts c))).
  destruct (trimEnd s) as [| d t]; simpl; [| done].
  by destruct (isWhiteSpace c).
Qed.

Lemma toLowerCase_trim s : toLowerCase (trim s) = trim (toLowerCase s).
Proof. unfold trim. by rewrite toLowerCase_trimEnd, toLowerCase_trimStart. Qed.

Lemma trimEnd_idem s : trimEnd (trimEnd s) = trimEnd s.
Proof.
  induction s as [| c s IH]; [done |].
  simpl. destruct (trimEnd s) as [| d t] eqn:E.
  - destruct (isWhiteSpace c) eqn:Ec; [done |]. simpl. by rewrite Ec.
  - simpl in *. by rewrite IH.
Qed.

(** Trimming the end leaves a leading character that is not white space in
    place. *)
Lemma trimStart_trimEnd s : trimStart s = s → trimStart (trimEnd s) = trimEnd s.
Proof.
  destruct s as [| c s]; [done |].
  simpl. destruct (isWhiteSpace c) eqn:Ec.
  - intros H. exfalso.
    assert (String.length (trimStart s) ≤ String.length s)%nat as Hlen.
    { clear. induction s as [| d s IH]; simpl; [lia |].
      destruct (isWhiteSpace d); simpl; lia. }
    rewrite H in Hlen. simpl in Hlen. lia.
  - intros _. destruct (trimEnd s); simpl; by rewrite Ec.
Qed.

Lemma trimStart_idem s : trimStart (trimStart s) = trimStart s.
Proof.
  induction s as [| c s IH]; [done |].
  simpl. destruct (isWhiteSpace c) eqn:Ec; [done |]. simpl. by rewrite Ec.
Qed.

Lemma trim_fixed s : trimStart (trim s) = trim s ∧ trimEnd (trim s) = trim s.
Proof.
  unfold trim. split.
  - apply trimStart_trimEnd, trimStart_idem.
  - apply trimEnd_idem.
Qed.

Lemma trim_idem s : trim (trim s) = trim s.
Proof.
  destruct (trim_fixed s) as [H1 H2].
  unfold trim at 1. by rewrite H1, H2.
Qed.

Lemma trimStart_length s : (String.length (trimStart s) ≤ String.length s)%nat.
Proof.
  induction s as [| c s IH]; simpl; [lia |].
  destruct (isWhiteSpace c); simpl; lia.
Qed.

Lemma trimEnd_length s : (String.length (trimEnd s) ≤ String.length s)%nat.
Proof.
  induction s as [| c s IH]; simpl; [lia |].
  destruct (trimEnd s); [destruct (isWhiteSpace c) |]; simpl in *; lia.
Qed.




(** X13: Normalizing twice is normalizing once. *)
Theorem lowercaseString_idempotent value :
  lowercaseString (lowercaseString value) = lowercaseString value.
Proof.
  destruct value as [s |]; [| done]. simpl. f_equal.
  by rewrite toLowerCase_trim, toLowerCase_idem, trim_idem.
Qed.



(** *** Sub-paths *)

Lemma stripLeadingSlashes_fixed s :
  stripLeadingSlashes (stripLeadingSlashes s) = stripLeadingSlashes s.
Proof.
  induction s as [| c s IH]; [done |].
  simpl. destruct (Ascii.eqb c "/") eqn:E; [done |]. simpl. by rewrite E.
Qed.

(** With a non-empty [SUB_PATH] the result is the prefix followed by the
    path without its leading slashes, so adding a slash in front of the path
    changes nothing; without a prefix, or with an empty one, the path comes
    back as it is. *)
Theorem maybeSetSubPath_joins prefix path :
  prefix ≠ EmptyString →
  maybeSetSubPath (Some prefix) path = prefix +:+ stripLeadingSlashes path ∧
  stripLeadingSlashes (stripLeadingSlashes path) = stripLeadingSlashes path ∧
  maybeSetSubPath (Some prefix) (String "/" path) =
    maybeSetSubPath (Some prefix) path ∧
  maybeSetSubPath None path = path ∧
  maybeSetSubPath (Some EmptyString) path = path.
Proof.
  intros Hne. destruct prefix as [| c p]; [done |].
  repeat split. apply stripLeadingSlashes_fixed.
Qed.

Lemma maybeSetSubPath_joins_witness :
  maybeSetSubPath (Some "/apps/"%string) "//invitations/x" =
    "/apps/invitations/x"%string.
Proof.
  apply (maybeSetSubPath_joins "/apps/" "//invitations/x"). discriminate.
Defined.

(** *** Names and slugs *)




(** *** Truncated names *)

Lemma replaceFirst_eq pattern replacement s :
  replaceFirst pattern replacement s =
    if String.prefix pattern s
    then replacement +:+ dropChars (String.length pattern) s
    else
      match s with
      | EmptyString => EmptyString
      | String c s' => String c (replaceFirst pattern replacement s')
      end.
Proof. by destruct s. Qed.

Lemma prefix_split pattern s :
  String.prefix pattern s = true →
  s = pattern +:+ dropChars (String.length pattern) s.
Proof.
  revert s. induction pattern as [| c p IH]; intros s; [by destruct s |].
  destruct s as [| d s]; [done |]. simpl.
  destruct (ascii_dec c d) as [-> |]; [| done].
  intros H. rewrite SemverFacts.append_cons. f_equal. by apply IH.
Qed.

Lemma prefix_append pattern b : String.prefix pattern (pattern +:+ b) = true.
Proof.
  induction pattern as [| c p IH]; [by destruct b |].
  rewrite SemverFacts.append_cons. simpl.
  by destruct (ascii_dec c c).
Qed.

Lemma append_empty_inv (a b : string) :
  a +:+ b = EmptyString → a = EmptyString ∧ b = EmptyString.
Proof. destruct a; [by rewrite SemverFacts.append_nil | done]. Qed.

(** [replaceFirst] replaces the first occurrence: either the pattern does
    not occur and the string is returned, or the string splits around an
    occurrence before which no other occurrence starts, and that one is
    replaced. *)
Lemma replaceFirst_first pattern replacement s :
  ((∀ pre post, s ≠ pre +:+ pattern +:+ post) ∧
   replaceFirst pattern replacement s = s) ∨
  ∃ pre post,
    s = pre +:+ pattern +:+ post ∧
    replaceFirst pattern replacement s = pre +:+ replacement +:+ post ∧
    ∀ pre' post', s = pre' +:+ pattern +:+ post' →
                  (String.length pre ≤ String.length pre')%nat.
Proof.
  induction s as [| c s IH].
  - rewrite replaceFirst_eq.
    destruct (String.prefix pattern EmptyString) eqn:E.
    + right. exists EmptyString, (dropChars (String.length pattern) EmptyString).
      rewrite !SemverFacts.append_nil.
      split; [by apply prefix_split | split; [done | simpl; lia]].
    + left. split; [| done]. intros pre post Heq. symmetry in Heq.
      apply append_empty_inv in Heq as [-> Heq].
      apply append_empty_inv in Heq as [-> _]. done.
  - rewrite replaceFirst_eq.
    destruct (String.prefix pattern (String c s)) eqn:E.
    + right. exists EmptyString, (dropChars (String.length pattern) (String c s)).
      rewrite !SemverFacts.append_nil.
      split; [by apply prefix_split | split; [done | simpl; lia]].
    + assert (∀ pre' post', String c s = pre' +:+ pattern +:+ post' →
                ∃ pre'', pre' = String c pre'' ∧ s = pre'' +:+ pattern +:+ post')
        as Hshape.
      { intros [| d pre''] post' Heq.
        - rewrite SemverFacts.append_nil in Heq.
          rewrite Heq, prefix_append in E. done.
        - rewrite SemverFacts.append_cons in Heq. injection Heq as <- ->.
          by exists pre''. }
      destruct IH as [[Hnone Hsame] | (pre & post & Heq & Hrep & Hmin)].
      * left. split; [| by rewrite Hsame].
        intros pre' post' Heq.
        destruct (Hshape pre' post' Heq) as (pre'' & -> & Hs).
        by apply (Hnone pre'' post').
      * right. exists (String c pre), post. rewrite !SemverFacts.append_cons.
        split; [by rewrite <- Heq | split; [by rewrite Hrep |]].
        intros pre' post' Heq'.
        destruct (Hshape pre' post' Heq') as (pre'' & -> & Hs).
        specialize (Hmin pre'' post' Hs). simpl. lia.
Qed.

Lemma takeChars_dropChars n s : s = takeChars n s +:+ dropChars n s.
Proof.
  revert s. induction n as [| n IH]; intros [| c s]; try done.
  simpl. rewrite SemverFacts.append_cons. f_equal. apply IH.
Qed.

Lemma takeChars_length n s : (String.length (takeChars n s) ≤ n)%nat.
Proof.
  revert s. induction n as [| n IH]; intros [| c s]; simpl; try lia.
  pose proof (IH s). lia.
Qed.

Lemma takeChars_length_full n s :
  (n ≤ String.length s)%nat → String.length (takeChars n s) = n.
Proof.
  revert s. induction n as [| n IH]; intros [| c s]; simpl; try lia.
  intros H. rewrite IH; lia.
Qed.

(** X16: A name of more than 35 characters has the first occurrence of its
    characters 35 to 49 replaced by the timestamp, the rest of the name being
    kept: no occurrence starts before the replaced one, which therefore
    starts at index 35 or earlier.  A shorter name has the timestamp
    appended. *)
Theorem truncateAndReplace_spec now name :
  ((35 < String.length name)%nat →
   ∃ pre post,
     name = pre +:+ substring 35 50 name +:+ post ∧
     truncateAndReplace now name = pre +:+ numberToString now +:+ post ∧
     (∀ pre' post', name = pre' +:+ substring 35 50 name +:+ post' →
                    (String.length pre ≤ String.length pre')%nat) ∧
     (String.length pre ≤ 35)%nat) ∧
  ((String.length name ≤ 35)%nat →
   truncateAndReplace now name = name +:+ numberToString now).
Proof.
  unfold truncateAndReplace. split; intros Hlen.
  - rewrite (proj2 (Nat.ltb_lt _ _) Hlen).
    pose proof (takeChars_dropChars 35 name) as H1.
    pose proof (takeChars_dropChars 15 (dropChars 35 name)) as H2.
    change (takeChars 15 (dropChars 35 name)) with (substring 35 50 name) in H2.
    assert (name = takeChars 35 name +:+ substring 35 50 name
                     +:+ dropChars 15 (dropChars 35 name)) as Hocc
      by (by rewrite <- H2).
    destruct (replaceFirst_first (substring 35 50 name) (numberToString now) name)
      as [[Hnone _] | (pre & post & Heq & Hrep & Hmin)].
    + by destruct (Hnone _ _ Hocc).
    + exists pre, post. split; [done | split; [done | split; [done |]]].
      specialize (Hmin _ _ Hocc).
      rewrite takeChars_length_full in Hmin by lia. done.
  - by rewrite (proj2 (Nat.ltb_ge _ _) Hlen).
Qed.

Lemma truncateAndReplace_spec_witness :
  ∃ pre post,
    ("an application name that is longer than 35 characters"%string
     = pre +:+ substring 35 50
                 "an application name that is longer than 35 characters" +:+ post) ∧
    truncateAndReplace 1700000000000
      "an application name that is longer than 35 characters"
    = pre +:+ numberToString 1700000000000 +:+ post.
Proof.
  destruct (truncateAndReplace_spec 1700000000000
              "an application name that is longer than 35 characters")
    as [Hlong _].
  destruct Hlong as (pre & post & H1 & H2 & _); [simpl; lia |].
  by exists pre, post.
Defined.

(** The replaced occurrence need not be the one at index 35: in a name made
    of one repeated character the timestamp lands in front. *)
Lemma truncateAndReplace_repeated_character :
  truncateAndReplace 17 "aaaaaaaaaaaaaaaaaaaaaaaaaaaaaaaaaaaaaaaaaaaaaaaaaaaaaaaaaaaa"
  = "17aaaaaaaaaaaaaaaaaaaaaaaaaaaaaaaaaaaaaaaaaaaaa"%string.
Proof. reflexivity. Qed.

End TextFacts.

(** * Properties of batching and of copy numbers *)

Module DataFacts.

Import Js Data.

Local Open Scope nat_scope.

(** *** Batches *)

Section Paging.

Context {T : Type}.

Implicit Types (rows data : list T) (log batches : list (list T)).

Lemma div_sub_lt (len batchSize fuel : nat) :
  0 < batchSize → batchSize ≤ len → len / batchSize < S fuel →
  (len - batchSize) / batchSize < fuel.
Proof.
  intros Hpos Hle Hdiv.
  assert (len = (len - batchSize) + 1 * batchSize) as Heq by lia.
  rewrite Heq, Nat.div_add in Hdiv by lia. lia.
Qed.

Lemma batchLoop_pageOf_S rows fuel batchSize skip log :
  batchLoop (pageOf rows) recordBatch (S fuel) batchSize skip log =
    let data := take batchSize (drop skip rows) in
    let w2 := if 0 <? length data then recordBatch data log else log in
    if length data =? batchSize
    then batchLoop (pageOf rows) recordBatch fuel batchSize (skip + batchSize) w2
    else Some w2.
Proof. reflexivity. Qed.

(** Paging through [rows] from [skip] on: the loop ends, and what it hands
    to [processBatch] is the rest of the rows cut into non-empty pieces of
    at most [batchSize]. *)
Lemma batchLoop_paging rows batchSize :
  0 < batchSize →
  ∀ fuel skip log,
    (length rows - skip) / batchSize < fuel →
    ∃ batches,
      batchLoop (pageOf rows) recordBatch fuel batchSize skip log
        = Some (log ++ batches) ∧
      concat batches = drop skip rows ∧
      Forall (fun b => 0 < length b ≤ batchSize) batches.
Proof.
  intros Hpos. induction fuel as [| fuel IH]; intros skip log Hfuel; [lia |].
  rewrite batchLoop_pageOf_S. cbv zeta.
  set (data := take batchSize (drop skip rows)).
  assert (length data = batchSize `min` (length rows - skip)) as Hlen
    by (unfold data; by rewrite length_take, length_drop).
  destruct (Nat.eqb_spec (length data) batchSize) as [Hfull | Hshort].
  - rewrite (proj2 (Nat.ltb_lt 0 (length data))) by lia.
    destruct (IH (skip + batchSize) (recordBatch data log)) as (bs & Hrun & Hcat & Hall).
    { replace (length rows - (skip + batchSize))
        with ((length rows - skip) - batchSize) by lia.
      apply div_sub_lt; [done | lia | done]. }
    exists (data :: bs). split; [| split].
    + rewrite Hrun. unfold recordBatch. by rewrite <- app_assoc.
    + simpl. rewrite Hcat. unfold data.
      rewrite <- (drop_drop rows batchSize skip). apply take_drop.
    + constructor; [lia | done].
  - assert (data = drop skip rows) as Hdata.
    { unfold data. apply take_ge. rewrite length_drop. lia. }
    destruct (Nat.ltb_spec 0 (length data)) as [Hsome | Hnone].
    + exists [data]. split; [done | split].
      * simpl. by rewrite app_nil_r.
      * repeat constructor; lia.
    + exists []. split; [by rewrite app_nil_r | split; [| done]].
      rewrite <- Hdata. simpl. symmetry. apply nil_length_inv. lia.
Qed.

(** X17: Every row is processed exactly once and in order: with a positive batch
    size and a [getData] that pages through [rows], the loop ends after at
    most [length rows / batchSize + 1] rounds, and the batches given to
    [processBatch], put end to end, are [rows]; none of them is empty or
    longer than [batchSize]. *)
Theorem processDataInBatches_covers_rows rows batchSize fuel :
  0 < batchSize → length rows / batchSize < fuel →
  ∃ batches,
    processDataInBatches (pageOf rows) recordBatch fuel batchSize [] = Some batches ∧
    concat batches = rows ∧
    Forall (fun b => 0 < length b ≤ batchSize) batches.
Proof.
  intros Hpos Hfuel.
  destruct (batchLoop_paging rows batchSize Hpos fuel 0 [])
    as (bs & Hrun & Hcat & Hall).
  { by rewrite Nat.sub_0_r. }
  exists bs. by rewrite drop_0 in Hcat.
Qed.

End Paging.

Lemma processDataInBatches_covers_rows_witness :
  ∃ batches,
    processDataInBatches (pageOf [1; 2; 3; 4; 5; 6]) recordBatch 4 3 []
      = Some batches ∧
    concat batches = [1; 2; 3; 4; 5; 6].
Proof.
  destruct (processDataInBatches_covers_rows [1; 2; 3; 4; 5; 6] 3 4)
    as (bs & H1 & H2 & _); [lia | simpl; lia |].
  by exists bs.
Defined.

Section Looping.

Context {T W : Type}.
Variable getData : nat → nat → W → list T * W.
Variable processBatch : list T → W → W.

(** X18: The loop goes on for as long as [getData] returns full batches: when it
    always returns exactly [batchSize] rows, no number of rounds ends it.
    This is what happens with [batchSize = 0] and a [getData] that honours
    the limit. *)
Theorem processDataInBatches_never_ends batchSize :
  (∀ skip w, length (getData skip batchSize w).1 = batchSize) →
  ∀ fuel w, processDataInBatches getData processBatch fuel batchSize w = None.
Proof.
  intros Hfull fuel. unfold processDataInBatches. generalize 0.
  induction fuel as [| fuel IH]; intros skip w; [done |].
  simpl. specialize (Hfull skip w).
  destruct (getData skip batchSize w) as [data w1]. simpl in Hfull.
  rewrite Hfull, Nat.eqb_refl. apply IH.
Qed.

End Looping.

Lemma processDataInBatches_never_ends_witness :
  processDataInBatches (pageOf [1; 2; 3]) recordBatch 1000 0 [] = None.
Proof.
  apply (processDataInBatches_never_ends (pageOf [1; 2; 3]) recordBatch 0).
  intros skip w. reflexivity.
Defined.

(** *** Copy numbers *)

Lemma append_empty_r (s : string) : s +:+ EmptyString = s.
Proof.
  induction s as [| c s IH]; [done |].
  by rewrite SemverFacts.append_cons, IH.
Qed.

Lemma prefix_single c d s :
  String.prefix (String c EmptyString) (String d s) = Ascii.eqb d c.
Proof.
  simpl. destruct (ascii_dec c d) as [-> | Hne].
  - rewrite Ascii.eqb_refl. by destruct s.
  - symmetry. apply Ascii.eqb_neq. congruence.
Qed.

(** With a separator of one character, as the default ['_'] is, the general
    split is the one used for versions. *)
Lemma splitBy_single c s : splitBy (String c EmptyString) s = split c s.
Proof.
  unfold splitBy, split.
  assert (∀ cur, splitScan (String c EmptyString) 0 cur s =
                 let '(h, t) := splitPieces c s in (cur +:+ h) :: t) as H.
  { induction s as [| d s IH]; intros cur.
    - simpl. by rewrite append_empty_r.
    - cbn [splitScan]. rewrite prefix_single. cbn [splitPieces].
      destruct (Ascii.eqb d c).
      + simpl. rewrite (IH EmptyString).
        destruct (splitPieces c s) as [h t]. by rewrite append_empty_r.
      + rewrite (IH (cur +:+ String d EmptyString)).
        destruct (splitPieces c s) as [h t].
        by rewrite SemverFacts.append_assoc. }
  rewrite (H EmptyString). by destruct (splitPieces c s).
Qed.

Local Open Scope Z_scope.

Lemma roundZ_exact z : 0 <= z < 2 ^ 53 → roundZ z = JFin z.
Proof.
  intros Hz. unfold roundZ.
  rewrite VersionFacts.toDouble_exact by lia.
  destruct (Z.ltb_spec z 0); [lia |]. f_equal. lia.
Qed.

(** The largest of a list of finite Numbers. *)
Lemma mathMax_finite (xs : list JsNumber) :
  (∀ x, x ∈ xs → ∃ k, x = JFin k) →
  (xs = [] ∧ mathMax xs = JInf true) ∨
  (∃ m, mathMax xs = JFin m ∧ JFin m ∈ xs ∧ ∀ k, JFin k ∈ xs → k <= m).
Proof.
  unfold mathMax.
  induction xs as [| x xs IH] using rev_ind; intros Hfin; [by left |].
  right. rewrite foldl_app. simpl.
  destruct (Hfin x) as [k ->]; [set_solver |].
  destruct IH as [[-> ->] | (m & -> & Hin & Hmax)].
  - intros y Hy. apply Hfin. set_solver.
  - exists k. simpl. split; [done | split; [set_solver |]].
    intros k' [= ->]%list_elem_of_singleton. lia.
  - exists (Z.max m k). simpl. split; [done | split].
    + destruct (Z.max_spec m k) as [[_ ->] | [_ ->]]; set_solver.
    + intros k' [Hk' | [= ->]%list_elem_of_singleton]%elem_of_app; [| lia].
      specialize (Hmax k' Hk'). lia.
Qed.

(** X19: When every numeric suffix is a safe integer, a non-empty list gets the
    number after the largest suffix, and at least 1: the result is greater
    than the copy number of every name in the list, and it is either 1 or
    one more than the copy number of some name. *)
Theorem getMaxCopyNumber_next (names : list string) splitChar :
  names ≠ [] →
  (∀ name, name ∈ names →
     copyNumberOf splitChar name = JNaN ∨
     ∃ k, copyNumberOf splitChar name = JFin k ∧ k < 2 ^ 53 - 1) →
  ∃ r,
    getMaxCopyNumber names splitChar = NextNumber (JFin r) ∧
    1 <= r ∧
    (∀ name k, name ∈ names → copyNumberOf splitChar name = JFin k → k < r) ∧
    (r = 1 ∨ ∃ name, name ∈ names ∧ copyNumberOf splitChar name = JFin (r - 1)).
Proof.
  intros Hne Hsafe. unfold getMaxCopyNumber.
  destruct names as [| n0 names0] eqn:En; [done |]. rewrite <- En in *.
  assert ((length names =? 0)%nat = false) as -> by (by rewrite En).
  clear En Hne n0 names0.
  set (numbers := copyNumberOf splitChar <$>
         filter (fun name => negb (isNaN (copyNumberOf splitChar name)) = true) names).
  assert (∀ x, x ∈ numbers ↔
            ∃ name, name ∈ names ∧ x = copyNumberOf splitChar name ∧ x ≠ JNaN)
    as Hnum.
  { intros x. unfold numbers. rewrite list_elem_of_fmap. split.
    - intros (name & -> & [Hnan Hin]%list_elem_of_filter).
      exists name. split; [done | split; [done |]].
      by destruct (copyNumberOf splitChar name).
    - intros (name & Hin & -> & Hnan). exists name. split; [done |].
      apply list_elem_of_filter. split; [| done].
      by destruct (copyNumberOf splitChar name). }
  assert (∀ x, x ∈ numbers → ∃ k, x = JFin k ∧ k < 2 ^ 53 - 1) as Hfin.
  { intros x (name & Hin & -> & Hnan)%Hnum.
    destruct (Hsafe name Hin) as [? | (k & Hk & Hlt)]; [done |]. eauto. }
  unfold mathMax. rewrite foldl_app. simpl. fold (mathMax numbers).
  destruct (mathMax_finite numbers) as [[Hnil ->] | (m & -> & Hin & Hmax)].
  - intros x Hx. destruct (Hfin x Hx) as (k & -> & _). eauto.
  - exists 1. simpl. split; [by rewrite roundZ_exact by lia | split; [lia |]].
    split; [| by left].
    intros name k Hin Hk. exfalso.
    assert (JFin k ∈ numbers) as Hmem.
    { apply Hnum. exists name. by rewrite Hk. }
    rewrite Hnil in Hmem. by apply elem_of_nil in Hmem.
  - destruct (Hfin _ Hin) as (m' & [= <-] & Hm).
    exists (Z.max m 0 + 1). simpl.
    split; [by rewrite roundZ_exact by lia | split; [lia |]]. split.
    + intros name k Hname Hk.
      assert (JFin k ∈ numbers) as Hmem.
      { apply Hnum. exists name. by rewrite Hk. }
      specialize (Hmax k Hmem). lia.
    + destruct (Z.max_spec m 0) as [[_ ->] | [Hle ->]]; [by left |].
      right. apply Hnum in Hin as (name & Hname & Heq & _).
      exists name. split; [done |]. rewrite <- Heq. f_equal. lia.
Qed.

Lemma sample_names_safe name :
  name ∈ ["app_1"; "app_7"; "app"; "x_3abc"; "y_-9"]%string →
  copyNumberOf "_" name = JNaN ∨
  ∃ k, copyNumberOf "_" name = JFin k ∧ k < 2 ^ 53 - 1.
Proof.
  intros Hin. apply list_elem_of_In in Hin. simpl in Hin.
  destruct Hin as [<- | [<- | [<- | [<- | [<- | []]]]]].
  - right. exists 1. split; reflexivity.
  - right. exists 7. split; reflexivity.
  - left. reflexivity.
  - right. exists 3. split; reflexivity.
  - right. exists (-9). split; reflexivity.
Defined.

Lemma getMaxCopyNumber_next_witness :
  ∃ r,
    getMaxCopyNumber ["app_1"; "app_7"; "app"; "x_3abc"; "y_-9"]%string "_"
      = NextNumber (JFin r) ∧
    (∀ name k,
        name ∈ ["app_1"; "app_7"; "app"; "x_3abc"; "y_-9"]%string →
        copyNumberOf "_" name = JFin k → k < r).
Proof.
  destruct (getMaxCopyNumber_next
              ["app_1"; "app_7"; "app"; "x_3abc"; "y_-9"]%string "_")
    as (r & H1 & _ & H2 & _);
    [discriminate | exact sample_names_safe |].
  by exists r.
Defined.

(** *** Cleaned objects *)

Section JsValInduction.

Variable P : JsVal → Prop.
Hypothesis Hundefined : P JUndefined.
Hypothesis Hnull : P JNull.
Hypothesis Hbool : ∀ b, P (JBool b).
Hypothesis Hnumber : ∀ n, P (JNumber n).
Hypothesis Hstring : ∀ s, P (JString s).
Hypothesis Harray : ∀ items, Forall P items → P (JArray items).
Hypothesis Hobject : ∀ props, Forall (fun kv => P kv.2) props → P (JObject props).

(** Induction on values, with the hypothesis available for every element of
    an array and every property of an object. *)
Lemma JsVal_nested_ind : ∀ v, P v.
Proof.
  fix IH 1. intros [| | b | n | s | items | props].
  - exact Hundefined.
  - exact Hnull.
  - apply Hbool.
  - apply Hnumber.
  - apply Hstring.
  - apply Harray.
    induction items as [| x items IHitems]; constructor; [apply IH | exact IHitems].
  - apply Hobject.
    induction props as [| [key x] props IHprops]; constructor;
      [apply IH | exact IHprops].
Qed.

End JsValInduction.

Lemma undefined_or_not (x : JsVal) : x = JUndefined ∨ x ≠ JUndefined.
Proof. destruct x; (by left) || (by right). Qed.

Lemma cleanIn_object props : cleanIn (JObject props) = JObject (cleanObject props).
Proof. reflexivity. Qed.

Lemma cleanIn_defined x : x ≠ JUndefined → cleanIn x ≠ JUndefined.
Proof. by destruct x. Qed.

Lemma cleanObject_cons_defined key x obj :
  x ≠ JUndefined → cleanObject ((key, x) :: obj) = (key, cleanIn x) :: cleanObject obj.
Proof. by destruct x. Qed.

Lemma cleanObject_cons_undefined key obj :
  cleanObject ((key, JUndefined) :: obj) = cleanObject obj.
Proof. reflexivity. Qed.

Lemma hasUndefinedProperty_cons_defined key x obj :
  x ≠ JUndefined →
  hasUndefinedProperty (JObject ((key, x) :: obj)) =
    hasUndefinedProperty x || hasUndefinedProperty (JObject obj).
Proof. by destruct x. Qed.

Lemma cleanIn_idem v : cleanIn (cleanIn v) = cleanIn v.
Proof.
  induction v as [| | b | n | s | items _ | props IH] using JsVal_nested_ind;
    try done.
  rewrite !cleanIn_object. f_equal.
  induction IH as [| [key x] props Hx _ IHprops]; [done |].
  destruct (undefined_or_not x) as [-> | Hdef]; [done |].
  rewrite (cleanObject_cons_defined key x props Hdef).
  rewrite cleanObject_cons_defined by (by apply cleanIn_defined).
  simpl in Hx. by rewrite Hx, IHprops.
Qed.

Lemma cleanIn_no_undefined v : hasUndefinedProperty (cleanIn v) = false.
Proof.
  induction v as [| | b | n | s | items _ | props IH] using JsVal_nested_ind;
    try done.
  rewrite cleanIn_object.
  induction IH as [| [key x] props Hx _ IHprops]; [done |].
  destruct (undefined_or_not x) as [-> | Hdef]; [done |].
  rewrite (cleanObject_cons_defined key x props Hdef).
  rewrite hasUndefinedProperty_cons_defined by (by apply cleanIn_defined).
  simpl in Hx. by rewrite Hx, IHprops.
Qed.

(** X20: Cleaning an object that has been cleaned changes nothing. *)
Theorem cleanObject_idempotent obj :
  cleanObject (cleanObject obj) = cleanObject obj.
Proof.
  pose proof (cleanIn_idem (JObject obj)) as H.
  rewrite !cleanIn_object in H. by injection H.
Qed.

(** X21: After the call no property of the object, and no property of an object
    nested in it through properties, is [undefined]. *)
Theorem cleanObject_leaves_no_undefined obj :
  hasUndefinedProperty (JObject (cleanObject obj)) = false.
Proof. rewrite <- cleanIn_object. apply cleanIn_no_undefined. Qed.

(** X22: The properties that are kept are those with a value other than
    [undefined], in their order; among them the ones that hold a primitive,
    [null] or an array keep their value as it was.  In particular nothing
    inside an array is cleaned. *)
Theorem cleanObject_keeps_defined obj :
  (cleanObject obj).*1 =
    (filter (fun kv => isUndefined kv.2 = false) obj).*1 ∧
  ∀ key x, (key, x) ∈ obj → x ≠ JUndefined → (∀ props, x ≠ JObject props) →
           (key, x) ∈ cleanObject obj.
Proof.
  split.
  - induction obj as [| [key x] obj IH]; [done |].
    destruct (undefined_or_not x) as [-> | Hdef].
    + rewrite cleanObject_cons_undefined, filter_cons_False; [done |].
      simpl. done.
    + rewrite cleanObject_cons_defined by done.
      rewrite filter_cons_True by (by destruct x).
      rewrite !fmap_cons. f_equal. exact IH.
  - intros key x Hin Hdef Hobj.
    induction obj as [| [key' x'] obj IH]; [by apply elem_of_nil in Hin |].
    apply elem_of_cons in Hin as [[= <- <-] | Hin].
    + rewrite cleanObject_cons_defined by done.
      assert (cleanIn x = x) as -> by (destruct x; try done; by destruct (Hobj props)).
      by left.
    + specialize (IH Hin).
      destruct (undefined_or_not x') as [-> | Hdef']; [done |].
      rewrite cleanObject_cons_defined by done. by right.
Qed.

Lemma cleanObject_keeps_defined_witness :
  ("tags"%string, JArray [JUndefined; JObject [("x"%string, JUndefined)]])
  ∈ cleanObject
      [("name"%string, JString "app");
       ("icon"%string, JUndefined);
       ("tags"%string, JArray [JUndefined; JObject [("x"%string, JUndefined)]])].
Proof.
  apply (cleanObject_keeps_defined
           [("name"%string, JString "app");
            ("icon"%string, JUndefined);
            ("tags"%string, JArray [JUndefined; JObject [("x"%string, JUndefined)]])]).
  - set_solver.
  - discriminate.
  - discriminate.
Defined.

(** *** Constraint errors *)

Section Conflicts.

Context {A E : Type}.
Variable messageOf : E → option string.

(** X23: A result is passed on.  An error is never swallowed: the call rejects
    with a [ConflictException] carrying the message of the first listed
    constraint whose name occurs in the error message, and with the error
    itself when there is no such constraint or the error has no message. *)
Theorem catchDbException_first_match (err : E) before c after :
  (∀ c', c' ∈ before →
     from_option (includes (dbConstraint c')) false (messageOf err) = false) →
  (from_option (includes (dbConstraint c)) false (messageOf err) = true →
   catchDbException (A := A) messageOf (Rejected err) (before ++ c :: after)
     = Rejected (ConflictException (message c))) ∧
  catchDbException (A := A) messageOf (Rejected err) before
    = Rejected (Caught err) ∧
  ∀ a : A, catchDbException messageOf (Resolved a) (before ++ c :: after)
             = Resolved a.
Proof.
  intros Hbefore.
  assert (∀ rest, firstConflict (messageOf err) (before ++ rest)
                  = firstConflict (messageOf err) rest) as Hskip.
  { intros rest. induction before as [| b before IH]; [done |].
    simpl. rewrite (Hbefore b) by set_solver.
    apply IH. intros c' Hc'. apply Hbefore. set_solver. }
  split; [| split; [| done]].
  - intros Hc. unfold catchDbException. rewrite Hskip. simpl. by rewrite Hc.
  - unfold catchDbException.
    rewrite <- (app_nil_r before), Hskip. done.
Qed.

End Conflicts.

Lemma catchDbException_first_match_witness :
  catchDbException (A := unit) (fun m : string => Some m)
    (Rejected "duplicate key value violates unique constraint app_name_idx"%string)
    [mkConstraint "folder_name_idx" "Folder exists";
     mkConstraint "app_name_idx" "App name taken";
     mkConstraint "name_idx" "Name taken"]
  = Rejected (ConflictException "App name taken").
Proof.
  apply (catchDbException_first_match (A := unit) (fun m : string => Some m)
           "duplicate key value violates unique constraint app_name_idx"%string
           [mkConstraint "folder_name_idx" "Folder exists"]
           (mkConstraint "app_name_idx" "App name taken")
           [mkConstraint "name_idx" "Name taken"]).
  - intros c' ->%list_elem_of_singleton. reflexivity.
  - reflexivity.
Defined.

End DataFacts.

(** * The connection cache as an ordinary object: properties *)

Module ObjectCacheFacts.

Import ConnectionCache ObjectCache.

Section WithConnections.

Context {Conn : Type}.
Variable handleTruthy : Conn → bool.
Variable handleCachedAt : Conn → option Z.
Variable handleConnection : Conn → Value Conn.

Implicit Types (σ : CacheObject Conn) (e : CacheEntry Conn).
Implicit Types (conn : Value Conn) (ts : option JsDate) (id : string).

Local Abbreviation lookupIn :=
  (getCachedConnection handleTruthy handleCachedAt handleConnection).
Local Abbreviation runOn := (run handleTruthy handleCachedAt handleConnection).

Lemma view_lookup σ id :
  view σ !! id = if String.eqb id "__proto__" then proto σ else own σ !! id.
Proof.
  unfold view. destruct (String.eqb_spec id "__proto__") as [-> | Hne].
  - destruct (proto σ); [apply lookup_insert_eq | apply lookup_delete_eq].
  - destruct (proto σ);
      [by rewrite lookup_insert_ne | by rewrite lookup_delete_ne].
Qed.

Lemma view_empty : view (emptyObject (Conn := Conn)) = ∅.
Proof. unfold view. simpl. apply delete_empty. Qed.

(** A store is an insertion into the view, for every id. *)
Lemma setProperty_view id e σ : view (setProperty id e σ) = <[id := e]> (view σ).
Proof.
  apply map_eq. intros k. rewrite view_lookup, lookup_insert, view_lookup.
  unfold setProperty.
  destruct (String.eqb_spec id "__proto__") as [-> | Hid]; simpl.
  - destruct (String.eqb_spec k "__proto__") as [-> | Hk].
    + by rewrite decide_True.
    + by rewrite decide_False.
  - destruct (String.eqb_spec k "__proto__") as [-> | Hk].
    + by rewrite decide_False.
    + destruct (decide (id = k)) as [-> | Hne].
      * apply lookup_insert_eq.
      * by rewrite lookup_insert_ne.
Qed.

Lemma cacheConnection_view now id conn σ :
  view (cacheConnection now id conn σ).2 =
    (ConnectionCache.cacheConnection now id conn (view σ)).2.
Proof. apply setProperty_view. Qed.

Lemma object_lookup_state id ts σ : (lookupIn id ts σ).2 = σ.
Proof.
  unfold getCachedConnection, mbind, M_bind, readEntry.
  destruct (ltZero _); reflexivity.
Qed.

Lemma object_lookup_result id ts σ :
  (lookupIn id ts σ).1 =
    let cachedData := orEmptyObject Conn handleTruthy (getProperty id σ) in
    if ltZero (diffTime (cachedAtOf Conn handleCachedAt cachedData) (timeOf ts))
    then VNull
    else connectionOf Conn handleConnection cachedData.
Proof.
  unfold getCachedConnection, mbind, M_bind, readEntry. cbv zeta.
  destruct (ltZero _); reflexivity.
Qed.

Lemma step_view (c : Call Conn) σ :
  view (step handleTruthy handleCachedAt handleConnection c σ) =
    ConnectionCache.step c (view σ).
Proof.
  destruct c as [now id conn | id ts]; unfold step, ConnectionCache.step.
  - apply cacheConnection_view.
  - by rewrite object_lookup_state, CacheFacts.getCachedConnection_state.
Qed.

(** The finite map of [ConnectionCache] is the view of the object after
    every sequence of calls. *)
Lemma run_view (calls : list (Call Conn)) σ :
  view (runOn calls σ) = ConnectionCache.run calls (view σ).
Proof.
  revert σ. induction calls as [| c calls IH]; intros σ; [done |].
  unfold run, ConnectionCache.run in *. simpl. by rewrite IH, step_view.
Qed.

Lemma getProperty_entry id e σ :
  view σ !! id = Some e → getProperty id σ = PEntry e.
Proof.
  rewrite view_lookup. unfold getProperty.
  destruct (String.eqb id "__proto__"); by intros ->.
Qed.

(** On an id that holds an entry the object answers as the finite map
    does. *)
Lemma getCachedConnection_view id e ts σ :
  view σ !! id = Some e →
  (lookupIn id ts σ).1 = (ConnectionCache.getCachedConnection id ts (view σ)).1.
Proof.
  intros He.
  rewrite object_lookup_result, CacheFacts.getCachedConnection_result.
  by rewrite (getProperty_entry id e σ He), He.
Qed.

(** What an id without an entry reads, after [|| {}]: the inherited handle
    if there is one, and otherwise something with neither property. *)
Lemma getProperty_no_entry id σ :
  view σ !! id = None →
  match inheritedHandle handleTruthy id σ with
  | Some h =>
      orEmptyObject Conn handleTruthy (getProperty id σ) = PValue (VConn h)
  | None =>
      cachedAtOf Conn handleCachedAt
        (orEmptyObject Conn handleTruthy (getProperty id σ)) = Some 0 ∧
      connectionOf Conn handleConnection
        (orEmptyObject Conn handleTruthy (getProperty id σ)) = VUndefined
  end.
Proof.
  rewrite view_lookup. unfold inheritedHandle, getProperty.
  destruct (String.eqb_spec id "__proto__") as [-> | Hid].
  - intros ->. by simpl.
  - intros ->. destruct (proto σ) as [p |].
    + destruct (String.eqb_spec id "connection") as [-> | Hc].
      * simpl. destruct (connection p) as [| | h]; simpl; try done.
        destruct (handleTruthy h) eqn:Eh; simpl; by rewrite ?Eh.
      * destruct (String.eqb id "updatedAt"); [done |].
        unfold inheritedFromObjectPrototype.
        by destruct (existsb _ _).
    + destruct (String.eqb id "connection");
        unfold inheritedFromObjectPrototype; by destruct (existsb _ _).
Qed.

Lemma lookup_no_entry id ts σ :
  view σ !! id = None →
  (lookupIn id ts σ).1 =
    match inheritedHandle handleTruthy id σ with
    | Some h =>
        if ltZero (diffTime (handleCachedAt h) (timeOf ts)) then VNull
        else handleConnection h
    | None => absentByTime ts
    end.
Proof.
  intros Hnone. rewrite object_lookup_result. cbv zeta.
  pose proof (getProperty_no_entry id σ Hnone) as H.
  destruct (inheritedHandle handleTruthy id σ) as [h |].
  - by rewrite H.
  - destruct H as [-> ->]. unfold absentByTime.
    destruct (timeOf ts) as [t |]; [| done].
    rewrite CacheFacts.ltZero_diffTime. by destruct (bool_decide (0 < t)).
Qed.

Lemma lastStore_snoc id (calls : list (Call Conn)) c :
  lastStore id (calls ++ [c]) =
    match c with
    | CallCacheConnection now id' conn =>
        if String.eqb id' id then Some (mkEntry conn (ValidDate now))
        else lastStore id calls
    | CallGetCachedConnection _ _ => lastStore id calls
    end.
Proof. unfold lastStore. by rewrite foldl_app. Qed.

Lemma run_lastStore (calls : list (Call Conn)) id :
  ConnectionCache.run calls ∅ !! id = lastStore id calls.
Proof.
  induction calls as [| c calls IH] using rev_ind.
  - unfold ConnectionCache.run. simpl. unfold Cache. apply lookup_empty.
  - rewrite CacheTraceFacts.run_snoc, lastStore_snoc.
    destruct c as [now id' conn | id' ts']; unfold ConnectionCache.step.
    + rewrite CacheFacts.cacheConnection_state. unfold Cache.
      destruct (String.eqb_spec id' id) as [-> | Hne].
      * apply lookup_insert_eq.
      * by rewrite lookup_insert_ne.
    + by rewrite CacheFacts.getCachedConnection_state.
Qed.

Lemma lastStore_none id (calls : list (Call Conn)) :
  Forall (fun c => ¬ storesTo id c) calls → lastStore id calls = None.
Proof.
  intros H. rewrite <- run_lastStore.
  rewrite CacheFacts.run_other by done. unfold Cache. apply lookup_empty.
Qed.

Lemma view_run_empty (calls : list (Call Conn)) id :
  view (runOn calls emptyObject) !! id = lastStore id calls.
Proof. by rewrite run_view, view_empty, run_lastStore. Qed.

(** After any calls from the empty object, a lookup for an id for which a
    store was made is answered as in the finite map, ["__proto__"]
    included. *)
Lemma stored_lookup_agrees (calls : list (Call Conn)) id e ts :
  lastStore id calls = Some e →
  (lookupIn id ts (runOn calls emptyObject)).1 =
    (ConnectionCache.getCachedConnection id ts (ConnectionCache.run calls ∅)).1.
Proof.
  intros He. rewrite <- view_run_empty in He.
  rewrite (getCachedConnection_view id e ts _ He).
  by rewrite run_view, view_empty.
Qed.

(** C7, amended: from the empty cache object, as long as no
    [cacheConnection] was made for [R], and none for ["__proto__"] in case
    [R] is ["connection"], a lookup for [R] returns [null] or [undefined]
    for every reference time, given or not, valid or not, and so never a
    connection.  This covers the ids that [Object.prototype] has a property
    for, and ["__proto__"] itself. *)
Theorem never_stored_lookup_absent R (calls : list (Call Conn)) ts :
  Forall (fun c => ¬ storesTo R c) calls →
  (R = "connection"%string → Forall (fun c => ¬ storesTo "__proto__" c) calls) →
  let r := (lookupIn R ts (runOn calls emptyObject)).1 in
  (r = VNull ∨ r = VUndefined) ∧ ∀ c : Conn, r ≠ VConn c.
Proof.
  intros Hcalls Hproto r.
  assert (r = absentByTime ts) as Hr.
  { unfold r. rewrite lookup_no_entry
      by (rewrite view_run_empty; by apply lastStore_none).
    assert (inheritedHandle handleTruthy R (runOn calls emptyObject) = None) as ->;
      [| done].
    unfold inheritedHandle.
    destruct (String.eqb_spec R "connection") as [-> | _]; [| done].
    pose proof (view_run_empty calls "__proto__") as Hv.
    rewrite view_lookup in Hv. simpl in Hv.
    rewrite Hv, lastStore_none; [done | by apply Hproto]. }
  assert (r = VNull ∨ r = VUndefined) as Hcases.
  { rewrite Hr. unfold absentByTime.
    destruct (timeOf ts) as [t |]; [| by right].
    destruct (bool_decide (0 < t)); [by left | by right]. }
  split; [done |].
  intros c. destruct Hcases as [-> | ->]; discriminate.
Qed.

(** C10, amended: [cacheConnection] for [R] leaves what every other id [R']
    reads, and what a lookup for it returns, as it was, unless [R] is
    ["__proto__"] and [R'] is ["connection"] or ["updatedAt"] without an
    entry of its own: a store under ["__proto__"] replaces the prototype of
    the cache object, and those two ids read the prototype's properties. *)
Theorem store_touches_own_key_only σ R R' h now :
  R' ≠ R →
  (R = "__proto__"%string →
   is_Some (own σ !! R') ∨ (R' ≠ "connection"%string ∧ R' ≠ "updatedAt"%string)) →
  getProperty R' (cacheConnection now R h σ).2 = getProperty R' σ ∧
  ∀ ts, (lookupIn R' ts (cacheConnection now R h σ).2).1 = (lookupIn R' ts σ).1.
Proof.
  intros Hne Hproto.
  assert (getProperty R' (cacheConnection now R h σ).2 = getProperty R' σ) as Hget.
  { unfold cacheConnection, writeEntry, setProperty. simpl.
    unfold getProperty.
    destruct (String.eqb_spec R "__proto__") as [-> | HR]; simpl.
    - destruct (String.eqb_spec R' "__proto__") as [-> | HR']; [done |].
      destruct (Hproto eq_refl) as [[e He] | [Hc Hu]]; [by rewrite He |].
      destruct (own σ !! R'); [done |].
      rewrite (proj2 (String.eqb_neq R' "connection") Hc).
      rewrite (proj2 (String.eqb_neq R' "updatedAt") Hu).
      by destruct (proto σ).
    - destruct (String.eqb_spec R' "__proto__") as [-> | HR']; [done |].
      rewrite lookup_insert_ne by congruence. done. }
  split; [done |].
  intros ts. by rewrite !object_lookup_result, Hget.
Qed.

(** X6: from the empty cache object, after any sequence of calls an id reads
    an entry exactly when a [cacheConnection] was made for it, and the entry
    is the one made by the last such call: that call's connection and clock
    reading, with a valid date.  This holds for ["__proto__"] as well, whose
    entry is the prototype. *)
Theorem entries_are_last_stores (calls : list (Call Conn)) id e :
  getProperty id (runOn calls emptyObject) = PEntry e ↔
  lastStore id calls = Some e.
Proof.
  rewrite <- view_run_empty. split.
  - rewrite view_lookup. unfold getProperty.
    destruct (String.eqb id "__proto__").
    + destruct (proto _); [by intros [= ->] | done].
    + destruct (own _ !! id); [by intros [= ->] |].
      destruct (proto _).
      * destruct (String.eqb id "connection"); [done |].
        destruct (String.eqb id "updatedAt"); [done |].
        unfold inheritedFromObjectPrototype. by destruct (existsb _ _).
      * unfold inheritedFromObjectPrototype. by destruct (existsb _ _).
  - apply getProperty_entry.
Qed.

(** X8: a lookup for an id that holds no entry.  The id ["connection"], once
    an entry with a truthy handle has been made the prototype, reads that
    handle, and the lookup is decided by the handle's own [updatedAt] and
    [connection] properties.  Every other id, and ["connection"] otherwise,
    reads something with neither property: the result is [null] when the
    reference time is after the epoch and [undefined] when it is missing,
    invalid or not after the epoch. *)
Theorem missing_entry_lookup σ id ts :
  view σ !! id = None →
  (lookupIn id ts σ).1 =
    match inheritedHandle handleTruthy id σ with
    | Some h =>
        if ltZero (diffTime (handleCachedAt h) (timeOf ts)) then VNull
        else handleConnection h
    | None =>
        match timeOf ts with
        | Some t => if bool_decide (0 < t) then VNull else VUndefined
        | None => VUndefined
        end
    end.
Proof. apply lookup_no_entry. Qed.

End WithConnections.

(** C7, as stated, fails: after a store under ["__proto__"] the id
    ["connection"], for which no store was made, reads the stored handle
    through the prototype, and the lookup returns that handle's
    [connection] property. *)
Lemma never_stored_lookup_counterexample :
  Forall (fun c => ¬ storesTo "connection" c)
    [CallCacheConnection 1000 "__proto__" (VConn 7%nat)] ∧
  (getCachedConnection sampleTruthy sampleCachedAt sampleConnection
     "connection" None
     (run sampleTruthy sampleCachedAt sampleConnection
        [CallCacheConnection 1000 "__proto__" (VConn 7%nat)] emptyObject)).1
  = VConn 8%nat.
Proof.
  split; [| reflexivity].
  repeat constructor. simpl. discriminate.
Qed.

Lemma never_stored_lookup_absent_witness :
  (getCachedConnection sampleTruthy sampleCachedAt sampleConnection
     "toString" (Some InvalidDate)
     (run sampleTruthy sampleCachedAt sampleConnection
        [CallCacheConnection 1000 "__proto__" (VConn 7%nat);
         CallGetCachedConnection "toString" None] emptyObject)).1
  ≠ VConn 8%nat.
Proof.
  apply (never_stored_lookup_absent sampleTruthy sampleCachedAt sampleConnection
           "toString"
           [CallCacheConnection 1000 "__proto__" (VConn 7%nat);
            CallGetCachedConnection "toString" None] (Some InvalidDate)).
  - repeat constructor; simpl; [discriminate | tauto].
  - discriminate.
Defined.

(** C10, as stated, fails: a store under ["__proto__"] changes what the id
    ["connection"] reads, from [undefined] to the stored handle, and with it
    what a lookup for ["connection"] returns. *)
Lemma store_touches_own_key_only_counterexample :
  getProperty "connection" (emptyObject (Conn := nat)) = PUndefined ∧
  getProperty "connection"
    (cacheConnection 1000 "__proto__" (VConn 7%nat) emptyObject).2
  = PValue (VConn 7%nat) ∧
  (getCachedConnection sampleTruthy sampleCachedAt sampleConnection
     "connection" None emptyObject).1 = VUndefined ∧
  (getCachedConnection sampleTruthy sampleCachedAt sampleConnection
     "connection" None
     (cacheConnection 1000 "__proto__" (VConn 7%nat) emptyObject).2).1
  = VConn 8%nat.
Proof. repeat split. Qed.

Lemma store_touches_own_key_only_witness :
  getProperty "ds-2"
    (cacheConnection 1600 "ds-1" (VConn 7%nat)
       (cacheConnection 1500 "ds-2" (VConn 8%nat) emptyObject).2).2
  = getProperty "ds-2" (cacheConnection 1500 "ds-2" (VConn 8%nat) emptyObject).2.
Proof.
  apply (store_touches_own_key_only sampleTruthy sampleCachedAt sampleConnection
           (cacheConnection 1500 "ds-2" (VConn 8%nat) emptyObject).2
           "ds-1" "ds-2" (VConn 7%nat) 1600).
  - discriminate.
  - discriminate.
Defined.

Lemma missing_entry_lookup_witness :
  (getCachedConnection sampleTruthy sampleCachedAt sampleConnection
     "connection" None
     (cacheConnection 1000 "__proto__" (VConn 7%nat) emptyObject).2).1
  = VConn 8%nat.
Proof.
  apply (missing_entry_lookup sampleTruthy sampleCachedAt sampleConnection
           (cacheConnection 1000 "__proto__" (VConn 7%nat) emptyObject).2
           "connection" None).
  reflexivity.
Defined.

End ObjectCacheFacts.
